(** * SuperMalloc's futex mutex (src/futex_mutex.cc)

    A shallow embedding of the four operations of the futex mutex
    ([futex_mutex_lock], [futex_mutex_unlock], [futex_mutex_subscribe],
    [futex_mutex_wait]) as small-step machines over the shared record
    [futex_mutex_t].  Every control point of the machines is one statement
    of the source, a step performs at most one access to shared memory or
    one system call, and a thread asleep in the kernel resumes through a
    separate transition that carries the value the system call returns.

    The memory model is sequential consistency: the [__sync_*] builtins are
    full barriers and the two fields are [volatile int]. *)

From Stdlib Require Import ZArith Lia Bool.
From stdpp Require Import base relations list.

Local Open Scope Z_scope.

(** ** Machine integers *)

(** [int] is 32 bits wide; [INT_MIN] and [INT_MAX] are those of <limits.h>. *)
Definition INT_MIN : Z := - 2 ^ 31.
Definition INT_MAX : Z := 2 ^ 31 - 1.

(** The value of an [int] after two's complement wrap-around, which is what
    the atomic builtins compute. *)
Definition wrap32 (z : Z) : Z := (z + 2 ^ 31) mod 2 ^ 32 - 2 ^ 31.

Definition int_range (z : Z) : Prop := INT_MIN <= z <= INT_MAX.

(** ** The shared state *)

(** Modelled from the spec: futex_mutex.h, which declares the struct, is not
    part of the sources; the spec's data model gives it two signed integer
    fields, [lock] and [wait], and the code accesses both through
    [volatile int *]. *)
Record futex_mutex_t : Type := mk_mutex { lock : Z; wait : Z }.

(** The zero-initialised mutex: free and uncontended. *)
Definition fresh_mutex : futex_mutex_t := mk_mutex 0 0.

(** The two addresses the code hands to the atomic builtins and to the
    kernel: [&m->lock] and [&m->wait]. *)
Inductive addr : Type := LockAddr | WaitAddr.

Definition load (a : addr) (m : futex_mutex_t) : Z :=
  match a with LockAddr => lock m | WaitAddr => wait m end.

Definition store (a : addr) (v : Z) (m : futex_mutex_t) : futex_mutex_t :=
  match a with
  | LockAddr => mk_mutex v (wait m)
  | WaitAddr => mk_mutex (lock m) v
  end.

(** [__sync_fetch_and_add(a, d)]: the memory after the addition; the builtin
    returns [load a m], the value before it. *)
Definition fetch_and_add (a : addr) (d : Z) (m : futex_mutex_t) : futex_mutex_t :=
  store a (wrap32 (load a m + d)) m.

(** [__sync_bool_compare_and_swap(a, expected, desired)]. *)
Definition compare_and_swap (a : addr) (expected desired : Z) (m : futex_mutex_t)
  : bool * futex_mutex_t :=
  if load a m =? expected then (true, store a desired m) else (false, m).

(** ** What a step does *)

Inductive futex_op : Type := FUTEX_WAIT_PRIVATE | FUTEX_WAKE_PRIVATE.

Inductive event : Type :=
| EvLocal                                        (* no shared access *)
| EvPause                                        (* _mm_pause() *)
| EvLoad (a : addr) (v : Z)
| EvStore (a : addr) (v : Z)
| EvCas (a : addr) (expected desired : Z) (ok : bool)
| EvFetchAdd (a : addr) (d : Z) (old : Z)
| EvFutex (a : addr) (op : futex_op) (val : Z)   (* entry into the system call *)
| EvFutexReturn (rv : Z).                        (* the system call returns rv *)

(** [sys_futex(addr1, op, val1, NULL, NULL, 0)] as the event it leaves. *)
Definition sys_futex (addr1 : addr) (op : futex_op) (val1 : Z) : event :=
  EvFutex addr1 op val1.

Definition futex_wait (a : addr) (val : Z) : event := sys_futex a FUTEX_WAIT_PRIVATE val.
Definition futex_wake1 (a : addr) : event := sys_futex a FUTEX_WAKE_PRIVATE 1.
Definition futex_wakeN (a : addr) : event := sys_futex a FUTEX_WAKE_PRIVATE INT_MAX.

Definition lock_spin_count : Z := 20.
Definition unlock_spin_count : Z := 20.

(** ** futex_mutex_lock *)

Inductive lock_pc : Type :=
| LockLoop (count : Z)               (* line 37: while (count < lock_spin_count) *)
| LockRead (count : Z)               (* lines 38-39: old_c = m->lock; test bit 0 *)
| LockPause (count : Z)              (* lines 41-42: _mm_pause(); count++ *)
| LockFastCas (count old_c : Z)      (* line 43: CAS(&m->lock, old_c, old_c+1) *)
| LockRegister                       (* lines 51-52: fetch_and_add(&m->lock, 2) *)
| LockSlowRead (did_futex : Z)       (* lines 54-55: old_c = m->lock; test bit 0 *)
| LockFutexWait (did_futex old_c : Z) (* line 56: futex_wait(&m->lock, old_c) *)
| LockAsleep (did_futex old_c : Z)   (* inside the system call of line 56 *)
| LockSlowCas (did_futex old_c : Z)  (* line 58: CAS(&m->lock, old_c, old_c-1) *)
| LockReturn (r : Z).                (* lines 45 and 60 *)

(** One statement of [futex_mutex_lock].  [None] where the thread cannot
    move by itself: asleep in the kernel, or returned. *)
Definition futex_mutex_lock (m : futex_mutex_t) (p : lock_pc)
  : option (futex_mutex_t * lock_pc * event) :=
  match p with
  | LockLoop count =>
      if count <? lock_spin_count
      then Some (m, LockRead count, EvLocal)
      else Some (m, LockRegister, EvLocal)
  | LockRead count =>
      let old_c := lock m in
      if Z.land old_c 1 =? 1
      then Some (m, LockPause count, EvLoad LockAddr old_c)
      else Some (m, LockFastCas count old_c, EvLoad LockAddr old_c)
  | LockPause count =>
      Some (m, LockLoop (count + 1), EvPause)
  | LockFastCas count old_c =>
      let desired := wrap32 (old_c + 1) in
      match compare_and_swap LockAddr old_c desired m with
      | (true, m') => Some (m', LockReturn 0, EvCas LockAddr old_c desired true)
      | (false, m') => Some (m', LockLoop count, EvCas LockAddr old_c desired false)
      end
  | LockRegister =>
      Some (fetch_and_add LockAddr 2 m, LockSlowRead 0, EvFetchAdd LockAddr 2 (lock m))
  | LockSlowRead did_futex =>
      let old_c := lock m in
      if Z.land old_c 1 =? 1
      then Some (m, LockFutexWait did_futex old_c, EvLoad LockAddr old_c)
      else Some (m, LockSlowCas did_futex old_c, EvLoad LockAddr old_c)
  | LockFutexWait did_futex old_c =>
      Some (m, LockAsleep did_futex old_c, futex_wait LockAddr old_c)
  | LockAsleep _ _ => None
  | LockSlowCas did_futex old_c =>
      let desired := wrap32 (old_c - 1) in
      match compare_and_swap LockAddr old_c desired m with
      | (true, m') => Some (m', LockReturn did_futex, EvCas LockAddr old_c desired true)
      | (false, m') => Some (m', LockSlowRead did_futex, EvCas LockAddr old_c desired false)
      end
  | LockReturn _ => None
  end.

(** The system call of line 56 returns [rv]; the code drops the value and
    goes on with line 57, [did_futex = 1], and the next round of the loop.
    The kernel may return at any time: at once when [lock] no longer holds
    [old_c], after a wake, on a signal, or spuriously. *)
Definition futex_mutex_lock_resume (rv : Z) (p : lock_pc) : option lock_pc :=
  match p with
  | LockAsleep _ _ => Some (LockSlowRead 1)
  | _ => None
  end.

(** ** futex_mutex_unlock *)

Inductive unlock_pc : Type :=
| UnlockDec                (* line 69: old_c = fetch_and_add(&m->lock, -1); line 70 test *)
| UnlockWake1              (* line 72: futex_wake1(&m->lock) *)
| UnlockReadWait           (* line 75: if (m->wait) *)
| UnlockClearWait          (* line 76: m->wait = 0 *)
| UnlockWakeN              (* line 77: futex_wakeN(&m->wait) *)
| UnlockReturn.            (* line 80 *)

Definition futex_mutex_unlock (m : futex_mutex_t) (p : unlock_pc)
  : option (futex_mutex_t * unlock_pc * event) :=
  match p with
  | UnlockDec =>
      let old_c := lock m in
      let m' := fetch_and_add LockAddr (-1) m in
      if negb (old_c =? 0)
      then Some (m', UnlockWake1, EvFetchAdd LockAddr (-1) old_c)
      else Some (m', UnlockReadWait, EvFetchAdd LockAddr (-1) old_c)
  | UnlockWake1 =>
      Some (m, UnlockReturn, futex_wake1 LockAddr)
  | UnlockReadWait =>
      if negb (wait m =? 0)
      then Some (m, UnlockClearWait, EvLoad WaitAddr (wait m))
      else Some (m, UnlockReturn, EvLoad WaitAddr (wait m))
  | UnlockClearWait =>
      Some (store WaitAddr 0 m, UnlockWakeN, EvStore WaitAddr 0)
  | UnlockWakeN =>
      Some (m, UnlockReturn, futex_wakeN WaitAddr)
  | UnlockReturn => None
  end.

(** [futex_mutex_unlock] never sleeps: the wake calls do not block. *)
Definition futex_mutex_unlock_resume (rv : Z) (p : unlock_pc) : option unlock_pc := None.

(** ** futex_mutex_subscribe *)

Inductive subscribe_pc : Type :=
| SubscribeRead            (* line 83: m->lock & 1 *)
| SubscribeReturn (r : Z).

Definition futex_mutex_subscribe (m : futex_mutex_t) (p : subscribe_pc)
  : option (futex_mutex_t * subscribe_pc * event) :=
  match p with
  | SubscribeRead =>
      Some (m, SubscribeReturn (Z.land (lock m) 1), EvLoad LockAddr (lock m))
  | SubscribeReturn _ => None
  end.

Definition futex_mutex_subscribe_resume (rv : Z) (p : subscribe_pc)
  : option subscribe_pc := None.

(** ** futex_mutex_wait *)

Inductive wait_pc : Type :=
| WaitFor (did_futex i : Z)     (* line 89: i < lock_spin_count *)
| WaitRead (did_futex i : Z)    (* line 90: if (m->lock == 0) return did_futex *)
| WaitPause (did_futex i : Z)   (* line 91: _mm_pause(); then i++ *)
| WaitSet (did_futex : Z)       (* line 94: m->wait = 1 *)
| WaitFutexWait (did_futex : Z) (* line 95: futex_wait(&m->wait, 1) *)
| WaitAsleep (did_futex : Z)    (* inside the system call of line 95 *)
| WaitReturn (r : Z).

Definition futex_mutex_wait (m : futex_mutex_t) (p : wait_pc)
  : option (futex_mutex_t * wait_pc * event) :=
  match p with
  | WaitFor did_futex i =>
      if i <? lock_spin_count
      then Some (m, WaitRead did_futex i, EvLocal)
      else Some (m, WaitSet did_futex, EvLocal)
  | WaitRead did_futex i =>
      if lock m =? 0
      then Some (m, WaitReturn did_futex, EvLoad LockAddr (lock m))
      else Some (m, WaitPause did_futex i, EvLoad LockAddr (lock m))
  | WaitPause did_futex i =>
      Some (m, WaitFor did_futex (i + 1), EvPause)
  | WaitSet did_futex =>
      Some (store WaitAddr 1 m, WaitFutexWait did_futex, EvStore WaitAddr 1)
  | WaitFutexWait did_futex =>
      Some (m, WaitAsleep did_futex, futex_wait WaitAddr 1)
  | WaitAsleep _ => None
  | WaitReturn _ => None
  end.

(** The system call of line 95 returns [rv]; the code drops the value and
    goes on with line 96, [did_futex = 1], and the next round of the outer
    loop, whose [for] starts again at [i = 0]. *)
Definition futex_mutex_wait_resume (rv : Z) (p : wait_pc) : option wait_pc :=
  match p with
  | WaitAsleep _ => Some (WaitFor 1 0)
  | _ => None
  end.

(** ** Runs of one operation

    A run of an operation is the sequence of steps one thread takes inside
    one call.  Other threads run in between, so the memory a step starts
    from is unrelated to the memory the previous step left.  In the system
    defined further down, every thread inside a call stands where such a
    run leads ([reachable_has_run]). *)

Record obs (PC : Type) : Type := mk_obs {
  o_pc : PC;                  (* the statement executed *)
  o_pre : futex_mutex_t;      (* the memory it started from *)
  o_ev : event;               (* what it did *)
  o_post : futex_mutex_t      (* the memory it left *)
}.
Arguments mk_obs {PC} _ _ _ _.
Arguments o_pc {PC} _.
Arguments o_pre {PC} _.
Arguments o_ev {PC} _.
Arguments o_post {PC} _.

Section Runs.
Context {PC : Type}.
Variable step : futex_mutex_t -> PC -> option (futex_mutex_t * PC * event).
Variable resume : Z -> PC -> option PC.

Inductive exec : PC -> list (obs PC) -> PC -> Prop :=
| exec_nil p : exec p [] p
| exec_step p tr q m m' q' e :
    exec p tr q ->
    step m q = Some (m', q', e) ->
    exec p (tr ++ [mk_obs q m e m']) q'
| exec_resume p tr q m rv q' :
    exec p tr q ->
    resume rv q = Some q' ->
    exec p (tr ++ [mk_obs q m (EvFutexReturn rv) m]) q'.

(** What the scheduler and the kernel decide for one step: the memory the
    step finds, and the value a pending system call returns. *)
Definition stimulus : Type := futex_mutex_t * Z.

Definition react (s : stimulus) (p : PC) : option (obs PC * PC) :=
  match step (fst s) p with
  | Some (m', p', e) => Some (mk_obs p (fst s) e m', p')
  | None =>
      match resume (snd s) p with
      | Some p' => Some (mk_obs p (fst s) (EvFutexReturn (snd s)) (fst s), p')
      | None => None
      end
  end.

(** Replays a list of stimuli from [p]; stops where the thread has
    returned. *)
Fixpoint replay (p : PC) (ss : list stimulus) : list (obs PC) * PC :=
  match ss with
  | [] => ([], p)
  | s :: ss' =>
      match react s p with
      | Some (o, p') => let '(tr, q) := replay p' ss' in (o :: tr, q)
      | None => ([], p)
      end
  end.

(** The thread runs alone: each step starts from the memory the previous
    one left, and a system call that would sleep returns [rv] at once. *)
Fixpoint alone (fuel : nat) (rv : Z) (m : futex_mutex_t) (p : PC)
  : futex_mutex_t * PC * list event :=
  match fuel with
  | O => (m, p, [])
  | S fuel' =>
      match react (m, rv) p with
      | Some (o, p') =>
          let '(m', q, es) := alone fuel' rv (o_post o) p' in (m', q, o_ev o :: es)
      | None => (m, p, [])
      end
  end.

Definition events (tr : list (obs PC)) : list event := map o_ev tr.
End Runs.

(** ** Threads and the system

    A thread is a client of the mutex: between calls it is [Idle]; it calls
    [futex_mutex_lock] only while it does not hold the mutex and
    [futex_mutex_unlock] only while it does (the precondition of Release);
    it may call [futex_mutex_subscribe] and [futex_mutex_wait] at any
    time. *)

Inductive pc : Type :=
| Idle
| InLock (p : lock_pc)
| InUnlock (p : unlock_pc)
| InSubscribe (p : subscribe_pc)
| InWait (p : wait_pc).

(** [owns] is true from the return of a [futex_mutex_lock] call to the next
    call of [futex_mutex_unlock]. *)
Record thread : Type := mk_thread { owns : bool; at_pc : pc }.

Inductive call : Type := CallLock | CallUnlock | CallSubscribe | CallWait.

Definition entry (c : call) : pc :=
  match c with
  | CallLock => InLock (LockLoop 0)          (* line 36: count = 0 *)
  | CallUnlock => InUnlock UnlockDec
  | CallSubscribe => InSubscribe SubscribeRead
  | CallWait => InWait (WaitFor 0 0)         (* line 87: did_futex = 0; line 89: i = 0 *)
  end.

Definition may_call (holding : bool) (c : call) : bool :=
  match c with
  | CallLock => negb holding
  | CallUnlock => holding
  | CallSubscribe | CallWait => true
  end.

Definition in_pc {PC : Type} (inj : PC -> pc)
  (r : option (futex_mutex_t * PC * event)) : option (futex_mutex_t * pc * event) :=
  match r with
  | Some (m', p', e) => Some (m', inj p', e)
  | None => None
  end.

Definition pc_step (m : futex_mutex_t) (p : pc) : option (futex_mutex_t * pc * event) :=
  match p with
  | Idle => None
  | InLock q => in_pc InLock (futex_mutex_lock m q)
  | InUnlock q => in_pc InUnlock (futex_mutex_unlock m q)
  | InSubscribe q => in_pc InSubscribe (futex_mutex_subscribe m q)
  | InWait q => in_pc InWait (futex_mutex_wait m q)
  end.

Definition pc_resume (rv : Z) (p : pc) : option pc :=
  match p with
  | Idle => None
  | InLock q => InLock <$> futex_mutex_lock_resume rv q
  | InUnlock q => InUnlock <$> futex_mutex_unlock_resume rv q
  | InSubscribe q => InSubscribe <$> futex_mutex_subscribe_resume rv q
  | InWait q => InWait <$> futex_mutex_wait_resume rv q
  end.

(** What the scheduler lets a thread do next. *)
Inductive action : Type :=
| ACall (c : call)       (* an idle thread calls an operation *)
| ARun                   (* the thread executes its next statement *)
| AResume (rv : Z)       (* the kernel returns rv to a sleeping thread *)
| AReturn.               (* a finished operation returns to the client *)

Definition thread_act (a : action) (m : futex_mutex_t) (t : thread)
  : option (futex_mutex_t * thread) :=
  match a with
  | ACall c =>
      match at_pc t with
      | Idle =>
          if may_call (owns t) c
          then Some (m, mk_thread (match c with CallUnlock => false | _ => owns t end)
                                  (entry c))
          else None
      | _ => None
      end
  | ARun =>
      match pc_step m (at_pc t) with
      | Some (m', p', _) => Some (m', mk_thread (owns t) p')
      | None => None
      end
  | AResume rv =>
      match pc_resume rv (at_pc t) with
      | Some p' => Some (m, mk_thread (owns t) p')
      | None => None
      end
  | AReturn =>
      match at_pc t with
      | InLock (LockReturn _) => Some (m, mk_thread true Idle)
      | InUnlock UnlockReturn
      | InSubscribe (SubscribeReturn _)
      | InWait (WaitReturn _) => Some (m, mk_thread (owns t) Idle)
      | _ => None
      end
  end.

Record system : Type := mk_system { mem : futex_mutex_t; threads : list thread }.

Definition sys_act (i : nat) (a : action) (s : system) : option system :=
  match threads s !! i with
  | Some t =>
      match thread_act a (mem s) t with
      | Some (m', t') => Some (mk_system m' (<[i:=t']> (threads s)))
      | None => None
      end
  | None => None
  end.

(** One step of the system: any thread, any action it can take. *)
Definition sys_step (s s' : system) : Prop :=
  exists i a, sys_act i a s = Some s'.

(** [n] idle threads around a zero-initialised mutex. *)
Definition init (n : nat) : system :=
  mk_system fresh_mutex (replicate n (mk_thread false Idle)).

Definition reachable (n : nat) (s : system) : Prop := rtc sys_step (init n) s.

Fixpoint run_schedule (sched : list (nat * action)) (s : system) : option system :=
  match sched with
  | [] => Some s
  | (i, a) :: sched' =>
      match sys_act i a s with
      | Some s' => run_schedule sched' s'
      | None => None
      end
  end.

(** A thread accounts for bit 0 of [lock] from its acquiring
    compare-and-swap to its releasing decrement. *)
Definition charged (t : thread) : bool :=
  owns t ||
  match at_pc t with
  | InLock (LockReturn _) => true
  | InUnlock UnlockDec => true
  | _ => false
  end.

Definition charges (ts : list thread) : Z :=
  foldr (fun t n => Z.b2z (charged t) + n) 0 ts.

(** Thread-local facts: the values a compare-and-swap of
    [futex_mutex_lock] expects are even, and a thread inside
    [futex_mutex_lock] or [futex_mutex_unlock] is not counted as owner. *)
Definition disciplined (t : thread) : bool :=
  match at_pc t with
  | InLock (LockFastCas _ v) | InLock (LockSlowCas _ v) => negb (owns t) && Z.even v
  | InLock _ | InUnlock _ => negb (owns t)
  | _ => true
  end.

Definition mutex_inv (s : system) : Prop :=
  charges (threads s) = Z.land (lock (mem s)) 1 /\
  Forall (fun t => disciplined t = true) (threads s).

(** ** Reading the lock word

    Line 13 of the source: the lock field is twice the number of threads
    that wait to lock, plus 1 if the lock is locked. *)

Definition held_bit (v : Z) : bool := Z.testbit v 0.
Definition contenders (v : Z) : Z := Z.shiftr v 1.

(** ** Observing runs *)

Definition lock_exec := exec futex_mutex_lock futex_mutex_lock_resume.
Definition unlock_exec := exec futex_mutex_unlock futex_mutex_unlock_resume.
Definition subscribe_exec := exec futex_mutex_subscribe futex_mutex_subscribe_resume.
Definition wait_exec := exec futex_mutex_wait futex_mutex_wait_resume.

(** How many steps of a run did something that [f] recognises. *)
Fixpoint occurrences {PC : Type} (f : event -> bool) (tr : list (obs PC)) : nat :=
  match tr with
  | [] => O
  | o :: tr' => ((if f (o_ev o) then 1 else 0) + occurrences f tr')%nat
  end.

(** The atomic [+2] of line 51. *)
Definition is_registration (e : event) : bool :=
  match e with
  | EvFetchAdd LockAddr 2 _ => true
  | _ => false
  end.

(** A kernel wait on the address [a]. *)
Definition is_futex_wait (a : addr) (e : event) : bool :=
  match e, a with
  | EvFutex LockAddr FUTEX_WAIT_PRIVATE _, LockAddr => true
  | EvFutex WaitAddr FUTEX_WAIT_PRIVATE _, WaitAddr => true
  | _, _ => false
  end.

(** A kernel wake on the address [a]. *)
Definition is_futex_wake (a : addr) (e : event) : bool :=
  match e, a with
  | EvFutex LockAddr FUTEX_WAKE_PRIVATE _, LockAddr => true
  | EvFutex WaitAddr FUTEX_WAKE_PRIVATE _, WaitAddr => true
  | _, _ => false
  end.

(** Any system call. *)
Definition is_syscall (e : event) : bool :=
  match e with
  | EvFutex _ _ _ => true
  | _ => false
  end.

(** The flag the code keeps in [did_futex], as a function of the number of
    kernel waits so far. *)
Definition flag_of (waits : nat) : Z :=
  match waits with O => 0 | S _ => 1 end.

(** The phases of [futex_mutex_lock]: the bounded spin of lines 37-49 and
    the loop of lines 53-65. *)
Definition in_fast (p : lock_pc) : bool :=
  match p with
  | LockLoop _ | LockRead _ | LockPause _ | LockFastCas _ _ => true
  | _ => false
  end.

Definition in_slow (p : lock_pc) : bool :=
  match p with
  | LockSlowRead _ | LockFutexWait _ _ | LockAsleep _ _ | LockSlowCas _ _ => true
  | _ => false
  end.

(** The local variable [count], where it is live. *)
Definition spin_count_of (p : lock_pc) : option Z :=
  match p with
  | LockLoop c | LockRead c | LockPause c | LockFastCas c _ => Some c
  | _ => None
  end.

(** The value a call of [futex_mutex_subscribe] returned, where it has. *)
Definition subscribe_result (p : subscribe_pc) : option Z :=
  match p with SubscribeReturn r => Some r | _ => None end.

(** ** Calls made by a lone thread *)

(** A whole [futex_mutex_unlock] with nobody else running: five statements
    at most. *)
Definition unlock_call (m : futex_mutex_t) : futex_mutex_t * unlock_pc * list event :=
  alone futex_mutex_unlock futex_mutex_unlock_resume 5 0 m UnlockDec.

(** A whole [futex_mutex_subscribe]: one statement. *)
Definition subscribe_call (m : futex_mutex_t) : futex_mutex_t * subscribe_pc * list event :=
  alone futex_mutex_subscribe futex_mutex_subscribe_resume 1 0 m SubscribeRead.

(** [n] calls of [futex_mutex_subscribe] in a row: the memory they leave and
    what each returned, [None] for a call that did not return. *)
Fixpoint subscribe_calls (n : nat) (m : futex_mutex_t) : futex_mutex_t * list (option Z) :=
  match n with
  | O => (m, [])
  | S n' =>
      let '(m', p, _) := subscribe_call m in
      let '(m'', rs) := subscribe_calls n' m' in
      (m'', subscribe_result p :: rs)
  end.



(** ** What a call of futex_mutex_lock has done so far *)

Definition registrations (tr : list (obs lock_pc)) : nat :=
  occurrences is_registration tr.

Definition lock_waits (tr : list (obs lock_pc)) : nat :=
  occurrences (is_futex_wait LockAddr) tr.

(** The facts that hold when a call that started at line 36 stands at [p]
    after the steps [tr]. *)
Definition lock_run_inv (tr : list (obs lock_pc)) (p : lock_pc) : Prop :=
  match p with
  | LockLoop c =>
      0 <= c <= lock_spin_count /\ registrations tr = O /\ lock_waits tr = O
  | LockRead c | LockPause c =>
      0 <= c < lock_spin_count /\ registrations tr = O /\ lock_waits tr = O
  | LockFastCas c v =>
      0 <= c < lock_spin_count /\ Z.even v = true /\
      registrations tr = O /\ lock_waits tr = O
  | LockRegister =>
      registrations tr = O /\ lock_waits tr = O
  | LockSlowRead d =>
      registrations tr = 1%nat /\ d = flag_of (lock_waits tr)
  | LockFutexWait d v =>
      registrations tr = 1%nat /\ d = flag_of (lock_waits tr) /\ Z.odd v = true
  | LockAsleep d v =>
      registrations tr = 1%nat /\ (1 <= lock_waits tr)%nat
  | LockSlowCas d v =>
      registrations tr = 1%nat /\ d = flag_of (lock_waits tr) /\ Z.even v = true
  | LockReturn r =>
      (registrations tr = O /\ lock_waits tr = O /\ r = 0) \/
      (registrations tr = 1%nat /\ r = flag_of (lock_waits tr))
  end.

(** ** Scenarios *)

(** What a thread meets when it calls [futex_mutex_lock] on a held mutex:
    twenty rounds of the spin (three statements each) and the failing loop
    test see [lock = 1]; the registration makes it 3; the thread reads 3
    and sleeps on it; the owner releases ([lock = 2]), the kernel returns 0,
    and the thread reads 2 and takes the mutex by compare-and-swap. *)
Definition slow_acquire_stimuli : list stimulus :=
  replicate 62 (mk_mutex 1 0, 0) ++
  [(mk_mutex 3 0, 0); (mk_mutex 3 0, 0);
   (mk_mutex 2 0, 0); (mk_mutex 2 0, 0); (mk_mutex 2 0, 0)].

Definition slow_acquire_run : list (obs lock_pc) * lock_pc :=
  replay futex_mutex_lock futex_mutex_lock_resume (LockLoop 0) slow_acquire_stimuli.

(** The free mutex taken at the first attempt: loop test, read, CAS. *)
Definition fast_acquire_stimuli : list stimulus :=
  replicate 3 (fresh_mutex, 0).

Definition fast_acquire_run : list (obs lock_pc) * lock_pc :=
  replay futex_mutex_lock futex_mutex_lock_resume (LockLoop 0) fast_acquire_stimuli.

(** The free mutex read at the first round of the spin: the thread stands
    at the compare-and-swap of line 43. *)
Definition fast_attempt_run : list (obs lock_pc) * lock_pc :=
  replay futex_mutex_lock futex_mutex_lock_resume (LockLoop 0)
    (replicate 2 (fresh_mutex, 0)).

(** The spin budget used up on a held mutex: the thread stands at the
    registration of line 51. *)
Definition spun_out_run : list (obs lock_pc) * lock_pc :=
  replay futex_mutex_lock futex_mutex_lock_resume (LockLoop 0)
    (replicate 61 (mk_mutex 1 0, 0)).

(** The registered thread woken after the release: it stands at the
    compare-and-swap of line 58 with [old_c = 2]. *)
Definition woken_run : list (obs lock_pc) * lock_pc :=
  replay futex_mutex_lock futex_mutex_lock_resume (LockLoop 0)
    (take 66 slow_acquire_stimuli).

(** ** What a call of futex_mutex_wait has done so far *)

Definition wait_waits (tr : list (obs wait_pc)) : nat :=
  occurrences (is_futex_wait WaitAddr) tr.

(** A step that leaves [lock] alone and at most sets [wait] to 1. *)
Definition touches_wait_only (o : obs wait_pc) : Prop :=
  lock (o_post o) = lock (o_pre o) /\
  (o_post o = o_pre o \/ o_post o = store WaitAddr 1 (o_pre o)).

(** Every system call of the run is [futex_wait(&m->wait, 1)], and the step
    before it is the store of 1 into [wait]. *)
Definition waits_announced (tr : list (obs wait_pc)) : Prop :=
  forall pre o post,
    tr = pre ++ o :: post ->
    is_syscall (o_ev o) = true ->
    o_ev o = futex_wait WaitAddr 1 /\
    exists pre' w, pre = pre' ++ [w] /\
                   o_ev w = EvStore WaitAddr 1 /\ wait (o_post w) = 1.

(** The last step of the run is a check of line 90 that read [lock = 0]. *)
Definition ends_on_free_check (tr : list (obs wait_pc)) : Prop :=
  exists tr0 d i m,
    tr = tr0 ++ [mk_obs (WaitRead d i) m (EvLoad LockAddr 0) m] /\
    lock m = 0 /\ 0 <= i < lock_spin_count.

Definition wait_run_inv (tr : list (obs wait_pc)) (p : wait_pc) : Prop :=
  Forall touches_wait_only tr /\
  waits_announced tr /\
  match p with
  | WaitFor d i => 0 <= i <= lock_spin_count /\ d = flag_of (wait_waits tr)
  | WaitRead d i | WaitPause d i =>
      0 <= i < lock_spin_count /\ d = flag_of (wait_waits tr)
  | WaitSet d => d = flag_of (wait_waits tr)
  | WaitFutexWait d =>
      d = flag_of (wait_waits tr) /\
      exists tr0 w, tr = tr0 ++ [w] /\
                    o_ev w = EvStore WaitAddr 1 /\ wait (o_post w) = 1
  | WaitAsleep d => (1 <= wait_waits tr)%nat
  | WaitReturn r => r = flag_of (wait_waits tr) /\ ends_on_free_check tr
  end.

(** A thread meets a held mutex in [futex_mutex_wait]: twenty rounds of the
    spin (three statements each) see [lock = 1], then the loop test fails,
    the thread sets [wait], sleeps, is woken with [lock = 0], and the first
    check of the next round returns. *)
Definition long_wait_stimuli : list stimulus :=
  replicate 63 (mk_mutex 1 0, 0) ++ [(mk_mutex 1 1, 0)] ++
  replicate 3 (mk_mutex 0 0, 0).

Definition long_wait_run : list (obs wait_pc) * wait_pc :=
  replay futex_mutex_wait futex_mutex_wait_resume (WaitFor 0 0) long_wait_stimuli.

(** The stimuli of [slow_acquire_stimuli] with a kernel that fails every
    wait: the system call returns -1 (EINTR, EAGAIN) instead of 0. *)
Definition failing_kernel (ss : list stimulus) : list stimulus :=
  map (fun s => (s.1, -1)) ss.

(** One call of [futex_mutex_subscribe] on a held, contended mutex. *)
Definition peek_run : list (obs subscribe_pc) * subscribe_pc :=
  replay futex_mutex_subscribe futex_mutex_subscribe_resume SubscribeRead
    [(mk_mutex 3 0, 0)].

(** A release of a free mutex while a thread sleeps in
    [futex_mutex_wait]; another thread sets [wait] between the decrement
    and the test of line 75. *)
Definition unheld_release_run : list (obs unlock_pc) * unlock_pc :=
  replay futex_mutex_unlock futex_mutex_unlock_resume UnlockDec
    [(mk_mutex 0 0, 0); (mk_mutex (-1) 1, 0); (mk_mutex (-1) 1, 0);
     (mk_mutex (-1) 0, 0)].

(** Thread 0 of two takes the free mutex on the fast path and returns. *)
Definition schedule_fast_acquire : list (nat * action) :=
  [(0%nat, ACall CallLock); (0%nat, ARun); (0%nat, ARun); (0%nat, ARun);
   (0%nat, AReturn)].

(** After that, thread 1 calls [futex_mutex_lock]: it spins twenty times,
    registers and sleeps on [lock = 3]; thread 0 releases; the kernel wakes
    thread 1, which takes the mutex in the slow loop and returns. *)
Definition schedule_handover : list (nat * action) :=
  schedule_fast_acquire ++
  [(1%nat, ACall CallLock)] ++ replicate 64 (1%nat, ARun) ++
  [(0%nat, ACall CallUnlock); (0%nat, ARun); (0%nat, ARun); (0%nat, AReturn)] ++
  [(1%nat, AResume 0); (1%nat, ARun); (1%nat, ARun); (1%nat, AReturn)].

(** Thread 1 calls [futex_mutex_wait] while thread 0 holds the mutex: it
    spins twenty times, sets [wait] and sleeps; then thread 0 releases. *)
Definition schedule_sleeper : list (nat * action) :=
  schedule_fast_acquire ++
  [(1%nat, ACall CallWait)] ++ replicate 63 (1%nat, ARun) ++
  [(0%nat, ACall CallUnlock); (0%nat, ARun); (0%nat, ARun); (0%nat, AReturn)].

(** The place a thread stands at inside a call is reached by a run of that
    call from its entry. *)
Definition has_run (p : pc) : Prop :=
  match p with
  | Idle => True
  | InLock q => exists tr, lock_exec (LockLoop 0) tr q
  | InUnlock q => exists tr, unlock_exec UnlockDec tr q
  | InSubscribe q => exists tr, subscribe_exec SubscribeRead tr q
  | InWait q => exists tr, wait_exec (WaitFor 0 0) tr q
  end.

(** ** The lock word as an account (line 13 of the source)

    "The lock field is the 2*number who currently wait to lock the lock + 1
    if the lock is locked."  A thread waits to lock from its registration
    of line 51 to its acquiring compare-and-swap of line 58. *)

Definition registered (t : thread) : bool :=
  match at_pc t with
  | InLock q => in_slow q
  | _ => false
  end.

Definition registrants (ts : list thread) : Z :=
  foldr (fun t n => Z.b2z (registered t) + n) 0 ts.

Definition encoding_inv (s : system) : Prop :=
  lock (mem s) = wrap32 (2 * registrants (threads s) + charges (threads s)).

(** The statements of [futex_mutex_unlock] behind the [else] of line 73. *)
Definition in_wait_branch (p : pc) : bool :=
  match p with
  | InUnlock UnlockReadWait | InUnlock UnlockClearWait | InUnlock UnlockWakeN => true
  | _ => false
  end.

(** No thread is inside a call and none holds the mutex. *)
Definition quiescent (s : system) : Prop :=
  Forall (fun t => t = mk_thread false Idle) (threads s).

(** Thread 0 takes the free mutex, releases it and returns. *)
Definition schedule_cycle : list (nat * action) :=
  schedule_fast_acquire ++
  [(0%nat, ACall CallUnlock); (0%nat, ARun); (0%nat, ARun); (0%nat, AReturn)].

(** Thread 0 holds the mutex and thread 1 has called
    [futex_mutex_subscribe]. *)
Definition schedule_peek_held : list (nat * action) :=
  schedule_fast_acquire ++ [(1%nat, ACall CallSubscribe)].

(** After a whole cycle of thread 0, thread 1 has called
    [futex_mutex_wait] and stands at its first check. *)
Definition schedule_wait_free : list (nat * action) :=
  schedule_cycle ++ [(1%nat, ACall CallWait); (1%nat, ARun)].

(** The state [schedule_sleeper] leads to: the mutex was released while
    thread 1 slept in [futex_mutex_wait]. *)
Definition sleeper_state : system :=
  mk_system (mk_mutex 0 1)
    [mk_thread false Idle; mk_thread false (InWait (WaitAsleep 0))].

(** The state [schedule_peek_held] leads to. *)
Definition peek_held_state : system :=
  mk_system (mk_mutex 1 0)
    [mk_thread true Idle; mk_thread false (InSubscribe SubscribeRead)].

(** The state [schedule_wait_free] leads to. *)
Definition wait_free_state : system :=
  mk_system (mk_mutex 0 0)
    [mk_thread false Idle; mk_thread false (InWait (WaitRead 0 0))].

(** ** More about single calls *)

(** [_mm_pause()]. *)
Definition is_pause (e : event) : bool :=
  match e with EvPause => true | _ => false end.

Definition lock_pauses (tr : list (obs lock_pc)) : Z :=
  Z.of_nat (occurrences is_pause tr).

Definition wait_pauses (tr : list (obs wait_pc)) : Z :=
  Z.of_nat (occurrences is_pause tr).

(** The value a compare-and-swap of [futex_mutex_lock] writes: [old_c+1] at
    line 43, [old_c-1] at line 58. *)
Definition lock_after (q : lock_pc) (v : Z) : Z :=
  match q with
  | LockFastCas _ _ => wrap32 (v + 1)
  | _ => wrap32 (v - 1)
  end.

(** The last step of the run is a compare-and-swap of the call that found
    the even value [v] it expected in [lock] and replaced it by
    [v + delta]. *)
Definition ends_on_winning_cas (tr : list (obs lock_pc)) : Prop :=
  exists tr0 q v m,
    tr = tr0 ++ [mk_obs q m (EvCas LockAddr v (lock_after q v) true)
                   (store LockAddr (lock_after q v) m)] /\
    (exists k, q = LockFastCas k v \/ q = LockSlowCas k v) /\
    lock m = v /\ Z.even v = true /\ Z.odd (lock_after q v) = true.

(** What a step of [futex_mutex_lock] may do besides reading and writing
    [lock]: it keeps [wait], and its only system call is a wait on the lock
    address that expects an odd value. *)
Definition lock_step_frame (o : obs lock_pc) : Prop :=
  wait (o_post o) = wait (o_pre o) /\
  (is_syscall (o_ev o) = true ->
   exists v, o_ev o = futex_wait LockAddr v /\ Z.odd v = true).

(** A whole uncontended [futex_mutex_lock]: loop test, read,
    compare-and-swap. *)
Definition lock_call (m : futex_mutex_t) : futex_mutex_t * lock_pc * list event :=
  alone futex_mutex_lock futex_mutex_lock_resume 3 0 m (LockLoop 0).

Definition lock_pause_inv (tr : list (obs lock_pc)) (p : lock_pc) : Prop :=
  match p with
  | LockLoop c | LockRead c | LockPause c | LockFastCas c _ => lock_pauses tr = c
  | LockReturn _ => 0 <= lock_pauses tr <= lock_spin_count
  | _ => lock_pauses tr = lock_spin_count
  end.

Definition wait_pause_inv (tr : list (obs wait_pc)) (p : wait_pc) : Prop :=
  match p with
  | WaitFor _ i | WaitRead _ i | WaitPause _ i =>
      wait_pauses tr = lock_spin_count * Z.of_nat (wait_waits tr) + i
  | WaitSet _ | WaitFutexWait _ =>
      wait_pauses tr = lock_spin_count * Z.of_nat (wait_waits tr) + lock_spin_count
  | WaitAsleep _ =>
      wait_pauses tr = lock_spin_count * Z.of_nat (wait_waits tr)
  | WaitReturn _ =>
      exists i, 0 <= i < lock_spin_count /\
                wait_pauses tr = lock_spin_count * Z.of_nat (wait_waits tr) + i
  end.

(** ** The test harness (lines 108-200)

    The harness calls the four operations from several threads.  What it
    computes itself is modelled here; the values the operations return and
    the readings of the clock are inputs. *)

(** [struct timespec] of <time.h>. *)
Record timespec : Type := mk_timespec { tv_sec : Z; tv_nsec : Z }.

Definition time_less (a b : timespec) : bool :=
  if tv_sec a <? tv_sec b then true
  else if tv_sec a >? tv_sec b then false
  else tv_nsec a <? tv_nsec b.

(** A [timespec] as the clock delivers it. *)
Definition normalized (a : timespec) : Prop := 0 <= tv_nsec a < 1000000000.

Definition nanoseconds (a : timespec) : Z := tv_sec a * 1000000000 + tv_nsec a.

(** The eight [uint64_t] counters of [stress] (line 140). *)
Record tallies : Type := mk_tallies {
  locked_fast : Z; locked_slow : Z;
  sub_locked : Z; sub_unlocked : Z;
  wait_long : Z; wait_short : Z;
  wait_was_one : Z; wait_was_zero : Z
}.

Definition no_tallies : tallies := mk_tallies 0 0 0 0 0 0 0 0.

(** [x++] on a [uint64_t]. *)
Definition incr64 (x : Z) : Z := (x + 1) mod 2 ^ 64.

(** The body of the [for] loop (lines 145-179) for the index [i]; [first]
    is what [futex_mutex_lock], [futex_mutex_subscribe] or
    [futex_mutex_wait] returned and [second] what the
    [futex_mutex_subscribe] of line 173 returned.  The block of lines
    148-154 is under [if (0)] and never runs. *)
Definition stress_case (i : Z) (first second : Z) (c : tallies) : tallies :=
  match i mod 3 with
  | 0 =>
      if first =? 0
      then mk_tallies (incr64 (locked_fast c)) (locked_slow c) (sub_locked c)
             (sub_unlocked c) (wait_long c) (wait_short c)
             (wait_was_one c) (wait_was_zero c)
      else mk_tallies (locked_fast c) (incr64 (locked_slow c)) (sub_locked c)
             (sub_unlocked c) (wait_long c) (wait_short c)
             (wait_was_one c) (wait_was_zero c)
  | 1 =>
      if negb (first =? 0)
      then mk_tallies (locked_fast c) (locked_slow c) (incr64 (sub_locked c))
             (sub_unlocked c) (wait_long c) (wait_short c)
             (wait_was_one c) (wait_was_zero c)
      else mk_tallies (locked_fast c) (locked_slow c) (sub_locked c)
             (incr64 (sub_unlocked c)) (wait_long c) (wait_short c)
             (wait_was_one c) (wait_was_zero c)
  | 2 =>
      let c1 :=
        if negb (first =? 0)
        then mk_tallies (locked_fast c) (locked_slow c) (sub_locked c)
               (sub_unlocked c) (incr64 (wait_long c)) (wait_short c)
               (wait_was_one c) (wait_was_zero c)
        else mk_tallies (locked_fast c) (locked_slow c) (sub_locked c)
               (sub_unlocked c) (wait_long c) (incr64 (wait_short c))
               (wait_was_one c) (wait_was_zero c) in
      if negb (second =? 0)
      then mk_tallies (locked_fast c1) (locked_slow c1) (sub_locked c1)
             (sub_unlocked c1) (wait_long c1) (wait_short c1)
             (incr64 (wait_was_one c1)) (wait_was_zero c1)
      else mk_tallies (locked_fast c1) (locked_slow c1) (sub_locked c1)
             (sub_unlocked c1) (wait_long c1) (wait_short c1)
             (wait_was_one c1) (incr64 (wait_was_zero c1))
  | _ => c
  end.

(** [for (uint64_t i = 0; i < 100; i++)] from the index [i] on; [ret i]
    holds what the calls of round [i] returned. *)
Fixpoint stress_for (fuel : nat) (i : Z) (ret : Z -> Z * Z) (c : tallies) : tallies :=
  match fuel with
  | O => c
  | S fuel' =>
      if i <? 100
      then stress_for fuel' (incr64 i) ret (stress_case i (ret i).1 (ret i).2 c)
      else c
  end.

Definition stress_batch (ret : Z -> Z * Z) (c : tallies) : tallies :=
  stress_for 101 0 ret c.

(** [while (1)] of lines 141-181: [clock] holds the readings
    [clock_gettime] will deliver, [ret b] what the calls of batch [b]
    return.  The result is the tallies the function prints and the number
    of batches it ran; [None] when the readings run out before the loop
    ends. *)
Fixpoint stress_while (start : timespec) (clock : list timespec)
    (ret : nat -> Z -> Z * Z) (batch : nat) (c : tallies) : option (tallies * nat) :=
  match clock with
  | [] => None
  | end_ :: clock' =>
      if time_less start end_ then Some (c, batch)
      else stress_while start clock' ret (S batch) (stress_batch (ret batch) c)
  end.

(** Lines 137-140: the first reading, one second later, is the deadline. *)
Definition stress (clock : list timespec) (ret : nat -> Z -> Z * Z)
  : option (tallies * nat) :=
  match clock with
  | [] => None
  | now :: clock' =>
      stress_while (mk_timespec (tv_sec now + 1) (tv_nsec now)) clock' ret O no_tallies
  end.

(** The tallies are small enough for [k] more increments of each. *)
Definition tallies_room (k : Z) (c : tallies) : Prop :=
  0 <= locked_fast c /\ 0 <= locked_slow c /\ 0 <= sub_locked c /\
  0 <= sub_unlocked c /\ 0 <= wait_long c /\ 0 <= wait_short c /\
  0 <= wait_was_one c /\ 0 <= wait_was_zero c /\
  locked_fast c + locked_slow c + k < 2 ^ 64 /\
  sub_locked c + sub_unlocked c + k < 2 ^ 64 /\
  wait_long c + wait_short c + k < 2 ^ 64 /\
  wait_was_one c + wait_was_zero c + k < 2 ^ 64.

(** Four readings of the clock (the deadline is second 1) and calls that
    return 1 at the rounds whose index is odd. *)
Definition sample_clock : list timespec :=
  [mk_timespec 0 0; mk_timespec 0 500000000; mk_timespec 1 0; mk_timespec 1 1].

Definition sample_returns (b : nat) (i : Z) : Z * Z := (i mod 2, 0).

Definition sample_tallies : tallies :=
  Eval vm_compute in
    match stress sample_clock sample_returns with
    | Some (c, _) => c
    | None => no_tallies
    end.

(** ** foo and simple_test (lines 110-125)

    [foo] calls [futex_mutex_lock], prints and sleeps, and calls
    [futex_mutex_unlock]; [simple_test] runs it in three threads and joins
    them.  A scripted system is the system above with, for every thread,
    the calls it has still to make; a thread makes its calls in that order
    and no others. *)

Definition foo : list call := [CallLock; CallUnlock].

Record scripted : Type := mk_scripted { sys : system; todo : list (list call) }.

Definition call_eqb (c c' : call) : bool :=
  match c, c' with
  | CallLock, CallLock | CallUnlock, CallUnlock
  | CallSubscribe, CallSubscribe | CallWait, CallWait => true
  | _, _ => false
  end.

Definition scripted_act (i : nat) (a : action) (s : scripted) : option scripted :=
  match a with
  | ACall c =>
      match todo s !! i with
      | Some (c' :: rest) =>
          if call_eqb c c'
          then match sys_act i a (sys s) with
               | Some s' => Some (mk_scripted s' (<[i:=rest]> (todo s)))
               | None => None
               end
          else None
      | _ => None
      end
  | _ =>
      match sys_act i a (sys s) with
      | Some s' => Some (mk_scripted s' (todo s))
      | None => None
      end
  end.

Definition scripted_step (s s' : scripted) : Prop :=
  exists i a, scripted_act i a s = Some s'.

(** Three threads about to run [foo] on the zero-initialised mutex. *)
Definition simple_test : scripted := mk_scripted (init 3) (replicate 3 foo).

(** Every thread has made all its calls and is back from the last one. *)
Definition joined (s : scripted) : Prop :=
  Forall (fun t => at_pc t = Idle) (threads (sys s)) /\
  Forall (fun l => l = []) (todo s).

(** Where a thread running [foo] can stand, given what it has still to
    call. *)
Definition foo_progress (t : thread) (l : list call) : Prop :=
  match l with
  | [CallLock; CallUnlock] => t = mk_thread false Idle
  | [CallUnlock] =>
      (owns t = false /\ exists q, at_pc t = InLock q) \/ t = mk_thread true Idle
  | [] => owns t = false /\ (at_pc t = Idle \/ exists q, at_pc t = InUnlock q)
  | _ => False
  end.

Fixpoint run_script (sched : list (nat * action)) (s : scripted) : option scripted :=
  match sched with
  | [] => Some s
  | (i, a) :: sched' =>
      match scripted_act i a s with
      | Some s' => run_script sched' s'
      | None => None
      end
  end.

(** One thread runs [foo] from start to end on a free mutex. *)
Definition foo_alone (i : nat) : list (nat * action) :=
  [(i, ACall CallLock); (i, ARun); (i, ARun); (i, ARun); (i, AReturn);
   (i, ACall CallUnlock); (i, ARun); (i, ARun); (i, AReturn)].

(** The three threads of [simple_test], one after the other. *)
Definition schedule_simple_test : list (nat * action) :=
  foo_alone 0 ++ foo_alone 1 ++ foo_alone 2.

(** * Proofs *)

(** ** Machine arithmetic *)

Lemma land_1_odd (z : Z) : Z.land z 1 = Z.b2z (Z.odd z).
Proof.
  change 1 with (Z.ones 1) at 1.
  rewrite Z.land_ones by lia.
  change (2 ^ 1) with 2. rewrite Zmod_odd. by destruct (Z.odd z).
Qed.

Lemma wrap32_eq (z : Z) : exists k, wrap32 z = z + 2 * k.
Proof.
  unfold wrap32. exists (- 2 ^ 31 * ((z + 2 ^ 31) / 2 ^ 32)).
  pose proof (Z.div_mod (z + 2 ^ 31) (2 ^ 32)). lia.
Qed.

Lemma wrap32_odd (z : Z) : Z.odd (wrap32 z) = Z.odd z.
Proof. destruct (wrap32_eq z) as [k ->]. apply Z.odd_add_mul_2. Qed.

Lemma wrap32_id (z : Z) : int_range z -> wrap32 z = z.
Proof.
  unfold int_range, INT_MIN, INT_MAX, wrap32. intros H.
  rewrite Z.mod_small; lia.
Qed.

Lemma wrap32_range (z : Z) : int_range (wrap32 z).
Proof.
  unfold int_range, INT_MIN, INT_MAX, wrap32.
  pose proof (Z.mod_pos_bound (z + 2 ^ 31) (2 ^ 32)). lia.
Qed.

Lemma odd_succ_flip (z : Z) : Z.odd (z + 1) = negb (Z.odd z).
Proof. rewrite Z.odd_add. simpl. by destruct (Z.odd z). Qed.

Lemma odd_pred_flip (z : Z) : Z.odd (z - 1) = negb (Z.odd z).
Proof. replace (z - 1) with (z + 1 + 2 * (-1)) by lia. rewrite Z.odd_add_mul_2. apply odd_succ_flip. Qed.

Lemma even_not_odd (z : Z) : Z.even z = true -> Z.odd z = false.
Proof. rewrite <- Z.negb_odd. by destruct (Z.odd z). Qed.

Lemma bit0_clear_even (z : Z) : (Z.land z 1 =? 1) = false -> Z.even z = true.
Proof.
  rewrite land_1_odd, <- Z.negb_odd. by destruct (Z.odd z).
Qed.

Lemma bit0_set_odd (z : Z) : (Z.land z 1 =? 1) = true -> Z.odd z = true.
Proof. rewrite land_1_odd. by destruct (Z.odd z). Qed.

(** ** Counting the threads charged to bit 0 *)

Lemma charges_nonneg (ts : list thread) : 0 <= charges ts.
Proof. induction ts as [|t ts IH]; simpl; [lia|]. destruct (charged t); simpl; lia. Qed.

Lemma charges_insert (ts : list thread) (i : nat) (t t' : thread) :
  ts !! i = Some t ->
  charges (<[i:=t']> ts) = charges ts - Z.b2z (charged t) + Z.b2z (charged t').
Proof.
  revert i. induction ts as [|u ts IH]; intros [|i] H; simpl in *; try done.
  - injection H as ->. lia.
  - rewrite (IH i H). lia.
Qed.

Lemma charges_lookup (ts : list thread) (i : nat) (t : thread) :
  ts !! i = Some t -> Z.b2z (charged t) <= charges ts.
Proof.
  revert i. induction ts as [|u ts IH]; intros [|i] H; simpl in *; try done.
  - injection H as ->. pose proof (charges_nonneg ts). lia.
  - specialize (IH i H). destruct (charged u); simpl; lia.
Qed.

Lemma charges_lookup2 (ts : list thread) (i j : nat) (a b : thread) :
  ts !! i = Some a -> ts !! j = Some b -> i <> j ->
  Z.b2z (charged a) + Z.b2z (charged b) <= charges ts.
Proof.
  revert i j. induction ts as [|u ts IH]; intros [|i] [|j] Hi Hj Hne;
    simpl in *; try done.
  - injection Hi as ->. pose proof (charges_lookup ts j b Hj). lia.
  - injection Hj as ->. pose proof (charges_lookup ts i a Hi). lia.
  - assert (i <> j) as Hne' by congruence.
    specialize (IH i j Hi Hj Hne'). destruct (charged u); simpl; lia.
Qed.

(** ** One step of one thread keeps the account *)

(** Case analysis on the tests a statement makes, then on its result. *)
Ltac split_tests H :=
  repeat match type of H with
    | context [Z.ltb ?a ?b] => destruct (Z.ltb a b) eqn:?
    | context [Z.eqb ?a ?b] => destruct (Z.eqb a b) eqn:?
    end;
  simpl in H;
  try discriminate H;
  try first [injection H as <- <- <- | injection H as <- <-].

(** Closes the parity side of a step: what the tests and the thread-local
    facts say about bit 0 before the step, against bit 0 after it. *)
Ltac parity :=
  repeat match goal with
    | H : (_ =? _) = true |- _ => apply Z.eqb_eq in H
    | H : (Z.land _ 1 =? 1) = false |- _ => apply bit0_clear_even in H
    | H : _ && _ = true |- _ => apply andb_prop in H as [? ?]
    | H : Z.even _ = true |- _ => apply even_not_odd in H
    | H : ?b || true = true -> _ |- _ => specialize (H (orb_true_r b))
    end;
  subst;
  rewrite <- ?Z.negb_odd, ?wrap32_odd, ?Z.odd_add, ?Z.odd_sub; simpl;
  repeat match goal with
    | H : Z.odd _ = _ |- _ => rewrite H
    | H : negb ?b = true |- _ => destruct b; [discriminate H|]
    end;
  simpl; rewrite ?andb_true_r, ?xorb_false_r; try done; try (split; [done | lia]).

Lemma thread_act_account (a : action) (m m' : futex_mutex_t) (t t' : thread) :
  thread_act a m t = Some (m', t') ->
  disciplined t = true ->
  (charged t = true -> Z.odd (lock m) = true) ->
  disciplined t' = true /\
  Z.b2z (charged t') - Z.b2z (charged t)
  = Z.b2z (Z.odd (lock m')) - Z.b2z (Z.odd (lock m)).
Proof.
  destruct t as [o p]. unfold thread_act, disciplined, charged. simpl.
  intros Hact Hd Hodd.
  destruct a as [c| |rv|].
  - destruct p; try done. destruct c, o; simpl in *; split_tests Hact; simpl; split; try done; lia.
  - destruct p as [|q|q|q|q]; simpl in Hact; try done; destruct q; simpl in Hact;
      unfold compare_and_swap, fetch_and_add in Hact; simpl in Hact;
      split_tests Hact; simpl in *.
    all: try (split; [done | lia]).
    all: parity.
  - destruct p as [|q|q|q|q]; simpl in Hact; try done; destruct q; simpl in Hact;
      split_tests Hact; simpl in *; try done; split; try done; lia.
  - destruct p as [|q|q|q|q]; simpl in Hact; try done; destruct q; simpl in Hact;
      split_tests Hact; destruct o; simpl in *; try done; split; try done; lia.
Qed.

(** ** The invariant of the system *)

Lemma mutex_inv_init (n : nat) : mutex_inv (init n).
Proof.
  split; simpl.
  - induction n as [|n IH]; simpl; [done | by rewrite IH].
  - apply Forall_replicate. done.
Qed.

Lemma mutex_inv_step (s s' : system) :
  mutex_inv s -> sys_step s s' -> mutex_inv s'.
Proof.
  intros [Hcount Hdisc] (i & a & Hact). unfold sys_act in Hact.
  destruct (threads s !! i) as [t|] eqn:Hi; [|done].
  destruct (thread_act a (mem s) t) as [[m' t']|] eqn:Ht; [|done].
  injection Hact as <-.
  assert (disciplined t = true) as Hdt.
  { rewrite Forall_lookup in Hdisc. exact (Hdisc i t Hi). }
  assert (charged t = true -> Z.odd (lock (mem s)) = true) as Hodd.
  { intros Hc. pose proof (charges_lookup _ _ _ Hi) as Hle.
    rewrite Hc, Hcount, land_1_odd in Hle.
    destruct (Z.odd (lock (mem s))); [done | simpl in Hle; lia]. }
  destruct (thread_act_account _ _ _ _ _ Ht Hdt Hodd) as [Hdt' Hdelta].
  split; simpl.
  - rewrite (charges_insert _ _ _ _ Hi), Hcount, !land_1_odd. lia.
  - by apply Forall_insert.
Qed.

Lemma mutex_inv_reachable (n : nat) (s : system) : reachable n s -> mutex_inv s.
Proof.
  unfold reachable. intros H. revert s H.
  apply (rtc_ind_r mutex_inv).
  - apply mutex_inv_init.
  - intros s1 s2 _ Hstep IH. by eapply mutex_inv_step.
Qed.

Lemma run_schedule_rtc (sched : list (nat * action)) (s s' : system) :
  run_schedule sched s = Some s' -> rtc sys_step s s'.
Proof.
  revert s. induction sched as [|[i a] sched IH]; simpl; intros s H.
  - injection H as ->. apply rtc_refl.
  - destruct (sys_act i a s) as [s1|] eqn:Hs; [|done].
    eapply rtc_l; [by exists i, a | by apply IH].
Qed.

(** C1. Mutual exclusion: in every state the system reaches from [n] idle
    threads around a zero-initialised mutex, whatever the interleaving of
    the threads' statements and of the kernel's returns, two threads that
    both hold the mutex (each between the return of its
    [futex_mutex_lock] and its next call of [futex_mutex_unlock]) are the
    same thread. *)
Theorem futex_mutex_mutual_exclusion (n : nat) (s : system) (i j : nat) (ti tj : thread) :
  reachable n s ->
  threads s !! i = Some ti ->
  threads s !! j = Some tj ->
  owns ti = true ->
  owns tj = true ->
  i = j.
Proof.
  intros Hreach Hi Hj Hoi Hoj.
  destruct (mutex_inv_reachable n s Hreach) as [Hcount _].
  destruct (decide (i = j)) as [|Hne]; [done | exfalso].
  pose proof (charges_lookup2 _ _ _ _ _ Hi Hj Hne) as Hle.
  unfold charged in Hle. rewrite Hoi, Hoj, Hcount, land_1_odd in Hle.
  destruct (Z.odd (lock (mem s))); simpl in Hle; lia.
Qed.

(** The mutex handed over under contention: thread 1 ends as the owner,
    thread 0 as a thread that released. *)
Example handover_reaches :
  run_schedule schedule_handover (init 2)
  = Some (mk_system (mk_mutex 1 0) [mk_thread false Idle; mk_thread true Idle]).
Proof. vm_compute. done. Qed.

(** A release with [lock = 1] and a sleeper in [futex_mutex_wait]: the
    mutex is free afterwards, [wait] is still 1 and the sleeper has not
    been woken. *)
Example sleeper_reaches :
  run_schedule schedule_sleeper (init 2)
  = Some (mk_system (mk_mutex 0 1)
            [mk_thread false Idle; mk_thread false (InWait (WaitAsleep 0))]).
Proof. vm_compute. done. Qed.

Lemma futex_mutex_mutual_exclusion_witness :
  run_schedule schedule_handover (init 2)
  = Some (mk_system (mk_mutex 1 0) [mk_thread false Idle; mk_thread true Idle]) /\
  1%nat = 1%nat.
Proof.
  split; [exact handover_reaches|].
  apply (futex_mutex_mutual_exclusion 2
           (mk_system (mk_mutex 1 0) [mk_thread false Idle; mk_thread true Idle])
           1 1 (mk_thread true Idle) (mk_thread true Idle)).
  - apply (run_schedule_rtc schedule_handover). exact handover_reaches.
  - reflexivity.
  - reflexivity.
  - reflexivity.
  - reflexivity.
Defined.

(** ** Runs: general facts *)

Section RunFacts.
Context {PC : Type}.
Variable step : futex_mutex_t -> PC -> option (futex_mutex_t * PC * event).
Variable resume : Z -> PC -> option PC.

Lemma exec_react (s : stimulus) (p p' q : PC) (o : obs PC) (tr : list (obs PC)) :
  react step resume s p = Some (o, p') ->
  exec step resume p' tr q ->
  exec step resume p (o :: tr) q.
Proof.
  intros Hr Hex.
  assert (exec step resume p [o] p') as H1.
  { unfold react in Hr.
    destruct (step s.1 p) as [[[m' p1] e]|] eqn:Hs.
    - injection Hr as <- <-.
      apply (exec_step step resume p [] p); [constructor | done].
    - destruct (resume s.2 p) as [p1|] eqn:Hres; [|done].
      injection Hr as <- <-.
      apply (exec_resume step resume p [] p); [constructor | done]. }
  clear Hr. induction Hex as [p'|p' tr q m m' q' e Hex IH Hs|p' tr q m rv q' Hex IH Hs].
  - done.
  - rewrite app_comm_cons. eapply exec_step; [by apply IH | done].
  - rewrite app_comm_cons. eapply exec_resume; [by apply IH | done].
Qed.

Lemma exec_snoc_react (s : stimulus) (p q q' : PC) (o : obs PC) (tr : list (obs PC)) :
  exec step resume p tr q ->
  react step resume s q = Some (o, q') ->
  exec step resume p (tr ++ [o]) q'.
Proof.
  intros Hex Hr. unfold react in Hr.
  destruct (step s.1 q) as [[[m' p1] e]|] eqn:Hs.
  - injection Hr as <- <-. by apply exec_step.
  - destruct (resume s.2 q) as [p1|] eqn:Hres; [|done].
    injection Hr as <- <-. by apply exec_resume.
Qed.

Lemma replay_exec (p : PC) (ss : list stimulus) :
  exec step resume p (replay step resume p ss).1 (replay step resume p ss).2.
Proof.
  revert p. induction ss as [|s ss IH]; intros p; simpl.
  - constructor.
  - destruct (react step resume s p) as [[o p']|] eqn:Hr; [|constructor].
    specialize (IH p').
    destruct (replay step resume p' ss) as [tr q]. simpl in *.
    by eapply exec_react.
Qed.

Lemma exec_nil_inv (p q : PC) : exec step resume p [] q -> p = q.
Proof.
  intros H. inversion H as [|? tr ? ? ? ? ? _ _ Heq|? tr ? ? ? ? _ _ Heq]; [done| |];
    by destruct tr.
Qed.

(** The first step of a run, and the run that follows it. *)
Lemma exec_cons_inv (p q : PC) (o : obs PC) (tr : list (obs PC)) :
  exec step resume p (o :: tr) q ->
  exists p',
    exec step resume p' tr q /\
    ((exists m m' e, o = mk_obs p m e m' /\ step m p = Some (m', p', e)) \/
     (exists m rv, o = mk_obs p m (EvFutexReturn rv) m /\ resume rv p = Some p')).
Proof.
  remember (o :: tr) as l eqn:Hl. intros H. revert o tr Hl.
  induction H as [p|p tr0 q m m' q' e Hex IH Hs|p tr0 q m rv q' Hex IH Hs];
    intros o tr Hl; [done| |].
  - destruct tr0 as [|y tr0]; simpl in Hl.
    + injection Hl as <- <-. apply exec_nil_inv in Hex as <-.
      exists q'. split; [constructor|]. left. by exists m, m', e.
    + injection Hl as <- <-.
      destruct (IH y tr0 eq_refl) as (p' & Hex' & Hfirst).
      exists p'. split; [by eapply exec_step | done].
  - destruct tr0 as [|y tr0]; simpl in Hl.
    + injection Hl as <- <-. apply exec_nil_inv in Hex as <-.
      exists q'. split; [constructor|]. right. by exists m, rv.
    + injection Hl as <- <-.
      destruct (IH y tr0 eq_refl) as (p' & Hex' & Hfirst).
      exists p'. split; [by eapply exec_resume | done].
Qed.


Lemma occurrences_app (f : event -> bool) (tr1 tr2 : list (obs PC)) :
  occurrences f (tr1 ++ tr2) = (occurrences f tr1 + occurrences f tr2)%nat.
Proof. induction tr1 as [|o tr1 IH]; simpl; [done | rewrite IH; lia]. Qed.

Lemma occurrences_snoc (f : event -> bool) (tr : list (obs PC)) (o : obs PC) :
  occurrences f (tr ++ [o])
  = (occurrences f tr + (if f (o_ev o) then 1 else 0))%nat.
Proof. rewrite occurrences_app. simpl. lia. Qed.
End RunFacts.

(** ** Runs of futex_mutex_lock *)

Lemma lock_step_inv (tr : list (obs lock_pc)) (p p' : lock_pc)
    (m m' : futex_mutex_t) (e : event) :
  lock_run_inv tr p ->
  futex_mutex_lock m p = Some (m', p', e) ->
  lock_run_inv (tr ++ [mk_obs p m e m']) p'.
Proof.
  intros Hinv Hs.
  destruct p; simpl in Hs; unfold compare_and_swap in Hs; simpl in Hs;
    split_tests Hs; unfold lock_run_inv, registrations, lock_waits in *;
    rewrite !occurrences_snoc; simpl.
  all: repeat match goal with
         | H : _ /\ _ |- _ => destruct H
         | H : (_ <? _) = true |- _ => apply Z.ltb_lt in H
         | H : (_ <? _) = false |- _ => apply Z.ltb_ge in H
         | H : (Z.land _ 1 =? 1) = false |- _ => apply bit0_clear_even in H
         | H : (Z.land _ 1 =? 1) = true |- _ => apply bit0_set_odd in H
         end.
  all: unfold lock_spin_count in *; rewrite ?Nat.add_0_r.
  all: try (repeat split; first [done | lia]).
  all: repeat match goal with H : occurrences _ _ = _ |- _ => rewrite H; clear H end.
  all: done.
Qed.

Lemma lock_resume_inv (tr : list (obs lock_pc)) (p p' : lock_pc)
    (m : futex_mutex_t) (rv : Z) :
  lock_run_inv tr p ->
  futex_mutex_lock_resume rv p = Some p' ->
  lock_run_inv (tr ++ [mk_obs p m (EvFutexReturn rv) m]) p'.
Proof.
  intros Hinv Hs. destruct p; simpl in Hs; try done. injection Hs as <-.
  unfold lock_run_inv, registrations, lock_waits in *.
  rewrite !occurrences_snoc. simpl. rewrite !Nat.add_0_r.
  destruct Hinv as [Hr Hw]. split; [done|].
  destruct (occurrences (is_futex_wait LockAddr) tr); [lia | done].
Qed.

Lemma lock_exec_inv (tr : list (obs lock_pc)) (p : lock_pc) :
  lock_exec (LockLoop 0) tr p -> lock_run_inv tr p.
Proof.
  unfold lock_exec. remember (LockLoop 0) as p0 eqn:Hp0. intros H.
  induction H as [p|p tr q m m' q' e Hex IH Hs|p tr q m rv q' Hex IH Hs].
  - subst p. simpl. unfold lock_spin_count. repeat split; lia.
  - eapply lock_step_inv; [by apply IH | done].
  - eapply lock_resume_inv; [by apply IH | done].
Qed.


Lemma lock_pause_exec_inv (tr : list (obs lock_pc)) (p : lock_pc) :
  lock_exec (LockLoop 0) tr p -> lock_pause_inv tr p.
Proof.
  unfold lock_exec. remember (LockLoop 0) as p0 eqn:Hp0. intros H.
  induction H as [p|p tr q m m' q' e Hex IH Hs|p tr q m rv q' Hex IH Hs].
  - subst p. done.
  - specialize (IH Hp0). subst p. apply lock_exec_inv in Hex.
    unfold lock_pause_inv, lock_pauses in *.
    destruct q; simpl in Hs; unfold compare_and_swap in Hs; simpl in Hs;
      split_tests Hs; rewrite ?occurrences_snoc; simpl in *;
      repeat match goal with
        | H : (_ <? _) = true |- _ => apply Z.ltb_lt in H
        | H : (_ <? _) = false |- _ => apply Z.ltb_ge in H
        end;
      unfold lock_spin_count in *; lia.
  - specialize (IH Hp0). unfold lock_pause_inv, lock_pauses in *.
    destruct q; simpl in Hs; try done. injection Hs as <-.
    rewrite occurrences_snoc. simpl. lia.
Qed.

Example slow_acquire_run_returns :
  slow_acquire_run.2 = LockReturn 1 /\
  lock_waits slow_acquire_run.1 = 1%nat /\
  registrations slow_acquire_run.1 = 1%nat /\
  length slow_acquire_run.1 = 67%nat.
Proof. vm_compute. done. Qed.

Example fast_acquire_run_returns :
  fast_acquire_run.2 = LockReturn 0 /\
  events fast_acquire_run.1
  = [EvLocal; EvLoad LockAddr 0; EvCas LockAddr 0 1 true].
Proof. vm_compute. done. Qed.

Lemma slow_acquire_exec :
  lock_exec (LockLoop 0) slow_acquire_run.1 (LockReturn 1).
Proof.
  pose proof (replay_exec futex_mutex_lock futex_mutex_lock_resume
                (LockLoop 0) slow_acquire_stimuli) as H.
  exact H.
Defined.

Lemma fast_acquire_exec :
  lock_exec (LockLoop 0) fast_acquire_run.1 (LockReturn 0).
Proof.
  exact (replay_exec futex_mutex_lock futex_mutex_lock_resume
           (LockLoop 0) fast_acquire_stimuli).
Defined.

(** C4. The value [futex_mutex_lock] returns tells whether the call went
    through the kernel wait: it is 0 exactly when the call issued no
    [futex_wait] on the lock address and 1 exactly when it issued at least
    one; a call that returns from the spin phase (no registration) issued
    none and returns 0, and a call that returns from the slow loop (one
    registration) returns 1 exactly when a [futex_wait] on the lock address
    came before the acquiring compare-and-swap. *)
Theorem futex_mutex_lock_flag (tr : list (obs lock_pc)) (r : Z) :
  lock_exec (LockLoop 0) tr (LockReturn r) ->
  (r = 0 <-> lock_waits tr = O) /\
  (r = 1 <-> (1 <= lock_waits tr)%nat) /\
  (r = 0 \/ r = 1) /\
  (registrations tr = O -> r = 0 /\ lock_waits tr = O) /\
  (registrations tr = 1%nat -> (r = 1 <-> (1 <= lock_waits tr)%nat)).
Proof.
  intros H. apply lock_exec_inv in H. simpl in H.
  destruct H as [(Hr & Hw & ->)|[Hr ->]].
  - rewrite Hr, Hw. repeat split; intros; try done; try lia; by left.
  - rewrite Hr. destruct (lock_waits tr) as [|n]; simpl.
    + repeat split; intros; try done; try lia; by left.
    + repeat split; intros; try done; try lia; by right.
Qed.

Lemma futex_mutex_lock_flag_witness :
  (1 = 1 <-> (1 <= lock_waits slow_acquire_run.1)%nat) /\
  (0 = 0 <-> lock_waits fast_acquire_run.1 = O).
Proof.
  split.
  - exact (proj1 (proj2 (futex_mutex_lock_flag _ 1 slow_acquire_exec))).
  - exact (proj1 (futex_mutex_lock_flag _ 0 fast_acquire_exec)).
Defined.

(** ** The lock word: bit 0 and the count above it *)

Lemma held_bit_odd (v : Z) : held_bit v = Z.odd v.
Proof. apply Z.bit0_odd. Qed.

Lemma contenders_succ_even (v : Z) :
  Z.even v = true -> contenders (v + 1) = contenders v.
Proof.
  intros H. apply even_not_odd in H. unfold contenders. rewrite <- !Z.div2_spec.
  pose proof (Z.div2_odd v) as H1. pose proof (Z.div2_odd (v + 1)) as H2.
  rewrite odd_succ_flip in H2. rewrite H in H1, H2. cbn [negb Z.b2z] in *. lia.
Qed.

Lemma contenders_pred_even (v : Z) :
  Z.even v = true -> contenders (v - 1) = contenders v - 1.
Proof.
  intros H. apply even_not_odd in H. unfold contenders. rewrite <- !Z.div2_spec.
  pose proof (Z.div2_odd v) as H1. pose proof (Z.div2_odd (v - 1)) as H2.
  rewrite odd_pred_flip in H2. rewrite H in H1, H2. cbn [negb Z.b2z] in *. lia.
Qed.

Lemma contenders_pred_odd (v : Z) :
  Z.odd v = true -> contenders (v - 1) = contenders v.
Proof.
  intros H. unfold contenders. rewrite <- !Z.div2_spec.
  pose proof (Z.div2_odd v) as H1. pose proof (Z.div2_odd (v - 1)) as H2.
  rewrite odd_pred_flip in H2. rewrite H in H1, H2. cbn [negb Z.b2z] in *. lia.
Qed.

Lemma contenders_add2 (v : Z) : contenders (v + 2) = contenders v + 1.
Proof.
  unfold contenders. rewrite <- !Z.div2_spec.
  pose proof (Z.div2_odd v) as H1. pose proof (Z.div2_odd (v + 2)) as H2.
  replace (Z.odd (v + 2)) with (Z.odd v) in H2
    by (replace (v + 2) with (v + 2 * 1) by lia; by rewrite Z.odd_add_mul_2).
  destruct (Z.odd v); cbn [Z.b2z] in *; lia.
Qed.

Lemma set_bit0_even (v : Z) : Z.even v = true -> v + 1 = Z.lor v 1.
Proof.
  intros H. apply even_not_odd in H.
  pose proof (Z.add_lor_land v 1) as H1. rewrite land_1_odd, H in H1.
  cbn [Z.b2z] in H1. lia.
Qed.

Lemma upper_bits (v w : Z) (n : Z) :
  contenders v = contenders w -> 1 <= n -> Z.testbit v n = Z.testbit w n.
Proof.
  unfold contenders. intros H Hn.
  replace n with (n - 1 + 1) by lia.
  rewrite <- !Z.shiftr_spec by lia. by rewrite H.
Qed.

Lemma even_in_range_succ (v : Z) :
  Z.even v = true -> int_range v -> int_range (v + 1).
Proof.
  unfold int_range, INT_MIN, INT_MAX. intros H Hr.
  apply Z.even_spec in H as [k ->]. lia.
Qed.

Lemma odd_in_range_pred (v : Z) :
  Z.odd v = true -> int_range v -> int_range (v - 1).
Proof.
  unfold int_range, INT_MIN, INT_MAX. intros H Hr.
  apply Z.odd_spec in H as [k ->]. lia.
Qed.

Lemma bit0_test (v : Z) : (Z.land v 1 =? 1) = held_bit v.
Proof.
  unfold held_bit. rewrite Z.bit0_odd, land_1_odd. by destruct (Z.odd v).
Qed.

(** What a step of the spin phase does, where the thread stands in a call
    that started at line 36. *)
Lemma lock_fast_phase_steps (tr : list (obs lock_pc)) (p p' : lock_pc)
    (m m' : futex_mutex_t) (e : event) :
  lock_exec (LockLoop 0) tr p ->
  in_fast p = true ->
  int_range (lock m) ->
  futex_mutex_lock m p = Some (m', p', e) ->
  (forall c, spin_count_of p = Some c -> 0 <= c <= lock_spin_count) /\
  (forall c c', spin_count_of p = Some c -> spin_count_of p' = Some c' ->
     (p = LockPause c /\ c' = c + 1) \/ ((forall k, p <> LockPause k) /\ c' = c)) /\
  (forall c, p = LockRead c ->
     e = EvLoad LockAddr (lock m) /\ m' = m /\
     p' = if held_bit (lock m) then LockPause c else LockFastCas c (lock m)) /\
  (forall c, p = LockPause c -> e = EvPause /\ m' = m /\ p' = LockLoop (c + 1)) /\
  (forall c v, p = LockFastCas c v ->
     held_bit v = false /\
     if lock m =? v
     then e = EvCas LockAddr v (v + 1) true /\
          m' = store LockAddr (v + 1) m /\ p' = LockReturn 0 /\
          v + 1 = Z.lor v 1 /\ held_bit (v + 1) = true /\
          contenders (v + 1) = contenders v
     else m' = m /\ p' = LockLoop c).
Proof.
  intros Hex Hfast Hrange Hs. apply lock_exec_inv in Hex.
  split; [|split; [|split; [|split]]].
  - intros c Hc. destruct p; simpl in Hc, Hex; try done; injection Hc as <-; lia.
  - intros c c' Hc Hc'.
    destruct p; simpl in Hc; try done; injection Hc as <-; simpl in Hs;
      unfold compare_and_swap in Hs; simpl in Hs; split_tests Hs;
      simpl in Hc'; try done; injection Hc' as <-;
      first [by left | by right].
  - intros c ->. simpl in Hs. rewrite held_bit_odd, land_1_odd in *.
    destruct (Z.odd (lock m)); simpl in Hs; by injection Hs as <- <- <-.
  - intros c ->. simpl in Hs. by injection Hs as <- <- <-.
  - intros c v ->. simpl in Hex. destruct Hex as (Hc & Hev & _).
    split; [rewrite held_bit_odd; by apply even_not_odd|].
    simpl in Hs. unfold compare_and_swap in Hs. simpl in Hs.
    destruct (lock m =? v) eqn:Heq.
    + apply Z.eqb_eq in Heq. subst v.
      rewrite (wrap32_id (lock m + 1)) in Hs by by apply even_in_range_succ.
      injection Hs as <- <- <-.
      repeat split; [by apply set_bit0_even | | by apply contenders_succ_even].
      rewrite held_bit_odd, odd_succ_flip, (even_not_odd _ Hev). done.
    + by injection Hs as <- <- <-.
Qed.

Lemma fast_attempt_exec :
  lock_exec (LockLoop 0) fast_attempt_run.1 (LockFastCas 0 0).
Proof.
  exact (replay_exec futex_mutex_lock futex_mutex_lock_resume
           (LockLoop 0) (replicate 2 (fresh_mutex, 0))).
Defined.

Lemma fresh_mutex_in_range : int_range (lock fresh_mutex).
Proof. unfold int_range, INT_MIN, INT_MAX. simpl. lia. Defined.

(** C6. The spin phase of [futex_mutex_lock] (lines 37-49).  What each of
    its statements does, on every memory:
    - the loop test of line 37 goes to the read of line 38 while
      [count < lock_spin_count] = 20, and leaves the phase otherwise;
    - the read of line 38 goes to the pause when bit 0 of the value read is
      set, and otherwise to the compare-and-swap of line 43 on the value
      [v] it read;
    - the pause of lines 41-42 adds one to [count] and goes back to the
      loop test;
    - the compare-and-swap of line 43 that fails changes neither the memory
      nor [count] and goes back to the loop test; the one that succeeds
      writes [v + 1] and the call returns 0 at once;
    - for even [v] within the range of [int], [v + 1] is [v] with bit 0 set
      and the same count of contenders.
    And in every call that started at line 36, wherever the thread stands
    in the phase: it can take its next step; [count] is between 0 and 20
    and equals the number of pauses executed so far; [count] changes only
    at the pause, by one; and the value the compare-and-swap expects is
    even. *)
Theorem futex_mutex_lock_fast_phase :
  (forall m c,
     futex_mutex_lock m (LockLoop c)
     = Some (m, (if c <? lock_spin_count then LockRead c else LockRegister), EvLocal)) /\
  (forall m c,
     futex_mutex_lock m (LockRead c)
     = Some (m, (if held_bit (lock m) then LockPause c else LockFastCas c (lock m)),
             EvLoad LockAddr (lock m))) /\
  (forall m c,
     futex_mutex_lock m (LockPause c) = Some (m, LockLoop (c + 1), EvPause)) /\
  (forall m c v,
     futex_mutex_lock m (LockFastCas c v)
     = if lock m =? v
       then Some (store LockAddr (wrap32 (v + 1)) m, LockReturn 0,
                  EvCas LockAddr v (wrap32 (v + 1)) true)
       else Some (m, LockLoop c, EvCas LockAddr v (wrap32 (v + 1)) false)) /\
  (forall v,
     held_bit v = false -> int_range v ->
     wrap32 (v + 1) = v + 1 /\ v + 1 = Z.lor v 1 /\
     held_bit (v + 1) = true /\ contenders (v + 1) = contenders v) /\
  (forall tr p m,
     lock_exec (LockLoop 0) tr p ->
     in_fast p = true ->
     int_range (lock m) ->
     exists m' p' e,
       futex_mutex_lock m p = Some (m', p', e) /\
       (forall c, spin_count_of p = Some c ->
          0 <= c <= lock_spin_count /\ lock_pauses tr = c) /\
       (forall c c', spin_count_of p = Some c -> spin_count_of p' = Some c' ->
          (p = LockPause c /\ c' = c + 1) \/ ((forall k, p <> LockPause k) /\ c' = c)) /\
       (forall c v, p = LockFastCas c v ->
          held_bit v = false /\
          if lock m =? v
          then e = EvCas LockAddr v (v + 1) true /\
               m' = store LockAddr (v + 1) m /\ p' = LockReturn 0
          else m' = m /\ p' = LockLoop c)).
Proof.
  split.
  { intros m c. simpl. by destruct (c <? lock_spin_count). }
  split.
  { intros m c. simpl. rewrite bit0_test. by destruct (held_bit (lock m)). }
  split; [done|]. split.
  { intros m c v. simpl. unfold compare_and_swap. simpl.
    by destruct (lock m =? v). }
  split.
  { intros v Hv Hrange. rewrite held_bit_odd in Hv.
    assert (Z.even v = true) as Hev by (rewrite <- Z.negb_odd; by rewrite Hv).
    split; [apply wrap32_id; by apply even_in_range_succ|].
    split; [by apply set_bit0_even|].
    split; [by rewrite held_bit_odd, odd_succ_flip, Hv|].
    by apply contenders_succ_even. }
  intros tr p m Hex Hfast Hrange.
  assert (exists m' p' e, futex_mutex_lock m p = Some (m', p', e))
    as (m' & p' & e & Hs).
  { destruct p; simpl in Hfast; try done; simpl;
      unfold compare_and_swap; simpl;
      repeat match goal with |- context [if ?b then _ else _] => destruct b end;
      by eexists _, _, _. }
  exists m', p', e. split; [done|].
  destruct (lock_fast_phase_steps tr p p' m m' e Hex Hfast Hrange Hs)
    as (Hbound & Hcount & _ & _ & Hcas).
  pose proof (lock_pause_exec_inv tr p Hex) as Hpauses.
  split; [|split; [done|]].
  - intros c Hc. split; [by apply Hbound|].
    destruct p; simpl in Hc; try done; injection Hc as <-; exact Hpauses.
  - intros c v Hp. destruct (Hcas c v Hp) as [Hv Hif]. split; [done|].
    destruct (lock m =? v); [|done]. destruct Hif as (He & Hm & Hp' & _). done.
Qed.

Lemma futex_mutex_lock_fast_phase_witness :
  lock_exec (LockLoop 0) fast_attempt_run.1 (LockFastCas 0 0) /\
  futex_mutex_lock fresh_mutex (LockFastCas 0 0)
  = Some (mk_mutex 1 0, LockReturn 0, EvCas LockAddr 0 1 true) /\
  (exists m' p' e,
     futex_mutex_lock fresh_mutex (LockFastCas 0 0) = Some (m', p', e) /\
     (forall c, spin_count_of (LockFastCas 0 0) = Some c ->
        0 <= c <= lock_spin_count /\ lock_pauses fast_attempt_run.1 = c)).
Proof.
  split; [exact fast_attempt_exec|]. split; [reflexivity|].
  destruct (proj2 (proj2 (proj2 (proj2 (proj2 futex_mutex_lock_fast_phase))))
              fast_attempt_run.1 (LockFastCas 0 0) fresh_mutex
              fast_attempt_exec eq_refl fresh_mutex_in_range)
    as (m' & p' & e & Hs & Hcount & _).
  exists m', p', e. split; [exact Hs | exact Hcount].
Defined.

(** What a transition of a thread inside [futex_mutex_lock] does to the
    account of contenders, where the thread stands in a call that started
    at line 36. *)
Lemma lock_registration_steps (tr : list (obs lock_pc)) (p p' : lock_pc)
    (m : futex_mutex_t) (rv : Z) (o : obs lock_pc) :
  lock_exec (LockLoop 0) tr p ->
  int_range (lock m) ->
  react futex_mutex_lock futex_mutex_lock_resume (m, rv) p = Some (o, p') ->
  (forall c, p = LockLoop c -> lock_spin_count <= c ->
     p' = LockRegister /\ o_post o = m) /\
  (p = LockRegister ->
     o_ev o = EvFetchAdd LockAddr 2 (lock m) /\
     o_post o = store LockAddr (wrap32 (lock m + 2)) m /\
     p' = LockSlowRead 0 /\
     (lock m + 2 <= INT_MAX ->
        lock (o_post o) = lock m + 2 /\
        held_bit (lock (o_post o)) = held_bit (lock m) /\
        contenders (lock (o_post o)) = contenders (lock m) + 1)) /\
  ((is_registration (o_ev o) = true <-> p = LockRegister) /\
   (registrations (tr ++ [o]) <= 1)%nat /\
   (in_fast p' = true -> registrations (tr ++ [o]) = O) /\
   (in_slow p' = true -> registrations (tr ++ [o]) = 1%nat)) /\
  (in_slow p = true -> in_slow p' = true \/ exists r, p' = LockReturn r) /\
  (forall d v, p = LockSlowCas d v -> lock m = v ->
     held_bit v = false /\
     o_post o = store LockAddr (wrap32 (v - 1)) m /\
     p' = LockReturn d /\
     (INT_MIN < v ->
        lock (o_post o) = v - 1 /\
        held_bit (v - 1) = true /\
        contenders (v - 1) = contenders v - 1)) /\
  (p <> LockRegister -> (forall d, p <> LockSlowCas d (lock m)) ->
     contenders (lock (o_post o)) = contenders (lock m)).
Proof.
  intros Hex Hrange Hr.
  assert (lock_run_inv (tr ++ [o]) p') as Hinv'.
  { apply lock_exec_inv. by eapply exec_snoc_react. }
  apply lock_exec_inv in Hex.
  unfold react in Hr. simpl in Hr.
  split; [|split; [|split; [|split; [|split]]]].
  - intros c -> Hc. simpl in Hr.
    destruct (c <? lock_spin_count) eqn:E; [apply Z.ltb_lt in E; lia|].
    by injection Hr as <- <-.
  - intros ->. simpl in Hr. unfold fetch_and_add in Hr. simpl in Hr.
    injection Hr as <- <-. simpl. do 3 (split; [done|]). intros Hle.
    assert (int_range (lock m + 2)) as Hr2
      by (unfold int_range, INT_MIN, INT_MAX in *; lia).
    rewrite (wrap32_id _ Hr2). repeat split.
    + rewrite !held_bit_odd. replace (lock m + 2) with (lock m + 2 * 1) by lia.
      apply Z.odd_add_mul_2.
    + apply contenders_add2.
  - split; [|split; [|split]].
    + destruct p; simpl in Hr; unfold compare_and_swap, fetch_and_add in Hr;
        simpl in Hr; split_tests Hr; simpl; split; done.
    + destruct p'; simpl in Hinv'; lia.
    + destruct p'; simpl in Hinv'; try done; lia.
    + destruct p'; simpl in Hinv'; try done; lia.
  - intros Hslow.
    destruct p; simpl in Hslow; try done; simpl in Hr;
      unfold compare_and_swap in Hr; simpl in Hr; split_tests Hr; simpl;
      first [by left | right; by eexists].
  - intros d v -> Hv. simpl in Hex. destruct Hex as (_ & _ & Hev).
    simpl in Hr. unfold compare_and_swap in Hr. simpl in Hr.
    rewrite (proj2 (Z.eqb_eq _ _) Hv) in Hr. simpl in Hr.
    injection Hr as <- <-. simpl.
    split; [rewrite held_bit_odd; by apply even_not_odd|].
    do 2 (split; [done|]). intros Hmin.
    assert (int_range (v - 1)) as Hr2
      by (unfold int_range, INT_MIN, INT_MAX in *; lia).
    rewrite (wrap32_id _ Hr2). repeat split.
    + rewrite held_bit_odd, odd_pred_flip, (even_not_odd _ Hev). done.
    + by apply contenders_pred_even.
  - intros Hnreg Hncas.
    destruct p; simpl in Hex; simpl in Hr; unfold compare_and_swap in Hr;
      simpl in Hr; split_tests Hr; simpl; try done.
    + apply Z.eqb_eq in Heqb. subst old_c. destruct Hex as (_ & Hev & _).
      rewrite wrap32_id by by apply even_in_range_succ.
      by apply contenders_succ_even.
    + apply Z.eqb_eq in Heqb. subst old_c. by destruct (Hncas did_futex).
Qed.

Lemma spun_out_exec : lock_exec (LockLoop 0) spun_out_run.1 LockRegister.
Proof.
  exact (replay_exec futex_mutex_lock futex_mutex_lock_resume
           (LockLoop 0) (replicate 61 (mk_mutex 1 0, 0))).
Defined.

Lemma held_mutex_in_range : int_range (lock (mk_mutex 1 0)).
Proof. unfold int_range, INT_MIN, INT_MAX. simpl. lia. Defined.

Lemma woken_exec : lock_exec (LockLoop 0) woken_run.1 (LockSlowCas 1 2).
Proof.
  exact (replay_exec futex_mutex_lock futex_mutex_lock_resume
           (LockLoop 0) (take 66 slow_acquire_stimuli)).
Defined.

Lemma released_mutex_in_range : int_range (lock (mk_mutex 2 0)).
Proof. unfold int_range, INT_MIN, INT_MAX. simpl. lia. Defined.

(** C3. Registration in [futex_mutex_lock] (lines 51-65).  What each
    statement does, on every memory:
    - with the spin budget used up ([count >= lock_spin_count]) the loop
      test of line 37 leads to the registration of line 51;
    - the registration is one atomic step that adds 2 to [lock] (with
      wrap-around) and enters the slow loop with [did_futex = 0];
    - the read of line 54 leads to the kernel wait on the value read when
      bit 0 is set, and to the compare-and-swap of line 58 otherwise;
    - the kernel wait puts the thread to sleep, and whatever the kernel
      returns the thread goes back to the read of line 54 (a thread that
      does not sleep is not resumed);
    - the compare-and-swap of line 58 that fails goes back to the read of
      line 54 without touching the memory; the one that succeeds writes
      [v - 1] (with wrap-around) and returns [did_futex];
    - without overflow, [lock + 2] has one contender more and the same
      bit 0, and for even [v], [v - 1] is odd with one contender fewer.
    And in every call that started at line 36, on a lock word within the
    range of [int], wherever the thread stands before its return: it can
    take its next transition (given the kernel's answer if it sleeps); the
    steps so far contain no [+2] while it is in the spin phase and exactly
    one once it is in the slow loop, never more than one; from the slow
    loop it moves within the slow loop or returns; and every transition
    other than the registration and the winning compare-and-swap of line 58
    leaves the count of contenders in [lock] as it was. *)
Theorem futex_mutex_lock_registration :
  (forall m c,
     lock_spin_count <= c ->
     futex_mutex_lock m (LockLoop c) = Some (m, LockRegister, EvLocal)) /\
  (forall m,
     futex_mutex_lock m LockRegister
     = Some (store LockAddr (wrap32 (lock m + 2)) m, LockSlowRead 0,
             EvFetchAdd LockAddr 2 (lock m))) /\
  (forall m d,
     futex_mutex_lock m (LockSlowRead d)
     = Some (m, (if held_bit (lock m) then LockFutexWait d (lock m)
                 else LockSlowCas d (lock m)),
             EvLoad LockAddr (lock m))) /\
  (forall m d v,
     futex_mutex_lock m (LockFutexWait d v)
     = Some (m, LockAsleep d v, futex_wait LockAddr v)) /\
  (forall m d v rv,
     futex_mutex_lock m (LockAsleep d v) = None /\
     futex_mutex_lock_resume rv (LockAsleep d v) = Some (LockSlowRead 1)) /\
  (forall m d v,
     futex_mutex_lock m (LockSlowCas d v)
     = if lock m =? v
       then Some (store LockAddr (wrap32 (v - 1)) m, LockReturn d,
                  EvCas LockAddr v (wrap32 (v - 1)) true)
       else Some (m, LockSlowRead d, EvCas LockAddr v (wrap32 (v - 1)) false)) /\
  (forall v,
     int_range v -> v + 2 <= INT_MAX ->
     wrap32 (v + 2) = v + 2 /\ held_bit (v + 2) = held_bit v /\
     contenders (v + 2) = contenders v + 1) /\
  (forall v,
     held_bit v = false -> int_range v -> INT_MIN < v ->
     wrap32 (v - 1) = v - 1 /\ held_bit (v - 1) = true /\
     contenders (v - 1) = contenders v - 1) /\
  (forall tr p m rv,
     lock_exec (LockLoop 0) tr p ->
     int_range (lock m) ->
     (forall r, p <> LockReturn r) ->
     exists o p',
       react futex_mutex_lock futex_mutex_lock_resume (m, rv) p = Some (o, p') /\
       (is_registration (o_ev o) = true <-> p = LockRegister) /\
       (registrations tr <= 1)%nat /\
       (in_fast p = true -> registrations tr = O) /\
       (in_slow p = true -> registrations tr = 1%nat) /\
       (registrations (tr ++ [o]) <= 1)%nat /\
       (in_slow p' = true -> registrations (tr ++ [o]) = 1%nat) /\
       (in_slow p = true -> in_slow p' = true \/ exists r, p' = LockReturn r) /\
       (forall d v, p = LockSlowCas d v -> lock m = v ->
          held_bit v = false /\
          o_post o = store LockAddr (wrap32 (v - 1)) m /\ p' = LockReturn d) /\
       (p <> LockRegister -> (forall d, p <> LockSlowCas d (lock m)) ->
          contenders (lock (o_post o)) = contenders (lock m))) /\
  (forall tr r,
     lock_exec (LockLoop 0) tr (LockReturn r) -> (registrations tr <= 1)%nat) /\
  (forall rv p,
     (forall d v, p <> LockAsleep d v) -> futex_mutex_lock_resume rv p = None).
Proof.
  split.
  { intros m c Hc. simpl.
    destruct (c <? lock_spin_count) eqn:E; [apply Z.ltb_lt in E; lia | done]. }
  split; [done|]. split.
  { intros m d. simpl. rewrite bit0_test. by destruct (held_bit (lock m)). }
  split; [done|]. split; [done|]. split.
  { intros m d v. simpl. unfold compare_and_swap. simpl.
    by destruct (lock m =? v). }
  split.
  { intros v Hrange Hle.
    split; [apply wrap32_id; unfold int_range, INT_MIN, INT_MAX in *; lia|].
    split; [|apply contenders_add2].
    rewrite !held_bit_odd. replace (v + 2) with (v + 2 * 1) by lia.
    apply Z.odd_add_mul_2. }
  split.
  { intros v Hv Hrange Hmin. rewrite held_bit_odd in Hv.
    assert (Z.even v = true) as Hev by (rewrite <- Z.negb_odd; by rewrite Hv).
    split; [apply wrap32_id; unfold int_range, INT_MIN, INT_MAX in *; lia|].
    split; [by rewrite held_bit_odd, odd_pred_flip, Hv|].
    by apply contenders_pred_even. }
  split; [|split; [intros tr r Hex; apply lock_exec_inv in Hex; simpl in Hex; lia|];
           intros rv p Hp; destruct p; try done; by destruct (Hp did_futex old_c)].
  intros tr p m rv Hex Hrange Hnot.
  assert (exists o p',
            react futex_mutex_lock futex_mutex_lock_resume (m, rv) p = Some (o, p'))
    as (o & p' & Hr).
  { unfold react. destruct p; simpl; unfold compare_and_swap; simpl;
      repeat match goal with |- context [if ?b then _ else _] => destruct b end;
      try (by eexists _, _).
    by destruct (Hnot r). }
  exists o, p'. split; [done|].
  destruct (lock_registration_steps tr p p' m rv o Hex Hrange Hr)
    as (_ & _ & (Hreg & Hle & _ & Hslow') & Hclosed & Hcas & Hkeep).
  pose proof (lock_exec_inv tr p Hex) as Hinv.
  split; [done|].
  split; [destruct p; simpl in Hinv; lia|].
  split; [intros Hf; destruct p; simpl in Hf, Hinv; try done; lia|].
  split; [intros Hs; destruct p; simpl in Hs, Hinv; try done; lia|].
  split; [done|]. split; [done|]. split; [done|].
  split; [|done].
  intros d v Hp Hv. destruct (Hcas d v Hp Hv) as (H1 & H2 & H3 & _). done.
Qed.

Lemma futex_mutex_lock_registration_witness :
  (lock_exec (LockLoop 0) spun_out_run.1 LockRegister /\
   react futex_mutex_lock futex_mutex_lock_resume (mk_mutex 1 0, 0) LockRegister
   = Some (mk_obs LockRegister (mk_mutex 1 0) (EvFetchAdd LockAddr 2 1) (mk_mutex 3 0),
           LockSlowRead 0) /\
   exists o p',
     react futex_mutex_lock futex_mutex_lock_resume (mk_mutex 1 0, 0) LockRegister
     = Some (o, p') /\
     (registrations (spun_out_run.1 ++ [o]) <= 1)%nat) /\
  (lock_exec (LockLoop 0) woken_run.1 (LockSlowCas 1 2) /\
   react futex_mutex_lock futex_mutex_lock_resume (mk_mutex 2 0, 0) (LockSlowCas 1 2)
   = Some (mk_obs (LockSlowCas 1 2) (mk_mutex 2 0) (EvCas LockAddr 2 1 true) (mk_mutex 1 0),
           LockReturn 1) /\
   (wrap32 (2 - 1) = 2 - 1 /\ held_bit (2 - 1) = true /\
    contenders (2 - 1) = contenders 2 - 1)).
Proof.
  split.
  - split; [exact spun_out_exec|]. split; [reflexivity|].
    destruct (proj1 (proj2 (proj2 (proj2 (proj2 (proj2 (proj2 (proj2 (proj2
                futex_mutex_lock_registration))))))))
                spun_out_run.1 LockRegister (mk_mutex 1 0) 0
                spun_out_exec held_mutex_in_range
                ltac:(intros r; discriminate))
      as (o & p' & Hr & _ & _ & _ & _ & Hle & _).
    exists o, p'. split; [exact Hr | exact Hle].
  - split; [exact woken_exec|]. split; [reflexivity|].
    refine (proj1 (proj2 (proj2 (proj2 (proj2 (proj2 (proj2 (proj2
              futex_mutex_lock_registration))))))) 2 _ _ _).
    + reflexivity.
    + exact released_mutex_in_range.
    + unfold INT_MIN. simpl. lia.
Defined.

(** ** Runs of futex_mutex_wait *)

Lemma snoc_split {A : Type} (tr pre post : list A) (x o : A) :
  tr ++ [x] = pre ++ o :: post ->
  (post = [] /\ pre = tr /\ o = x) \/
  (exists post', post = post' ++ [x] /\ tr = pre ++ o :: post').
Proof.
  destruct post as [|y post' _] using rev_ind; intros H.
  - apply app_inj_tail in H as [-> ->]. by left.
  - right. exists post'.
    replace (pre ++ o :: post' ++ [y]) with ((pre ++ o :: post') ++ [y]) in H
      by by rewrite <- app_assoc.
    apply app_inj_tail in H as [-> ->]. done.
Qed.

Lemma waits_announced_snoc (tr : list (obs wait_pc)) (x : obs wait_pc) :
  waits_announced tr ->
  (is_syscall (o_ev x) = true ->
   o_ev x = futex_wait WaitAddr 1 /\
   exists tr0 w, tr = tr0 ++ [w] /\
                 o_ev w = EvStore WaitAddr 1 /\ wait (o_post w) = 1) ->
  waits_announced (tr ++ [x]).
Proof.
  intros Htr Hx pre o post Heq Hsys.
  apply snoc_split in Heq as [(-> & -> & ->)|(post' & -> & ->)].
  - by apply Hx.
  - by eapply Htr.
Qed.

Example long_wait_run_returns :
  long_wait_run.2 = WaitReturn 1 /\ wait_waits long_wait_run.1 = 1%nat.
Proof. vm_compute. done. Qed.

Lemma wait_react_inv (tr : list (obs wait_pc)) (p p' : wait_pc)
    (s : stimulus) (o : obs wait_pc) :
  wait_run_inv tr p ->
  react futex_mutex_wait futex_mutex_wait_resume s p = Some (o, p') ->
  wait_run_inv (tr ++ [o]) p'.
Proof.
  intros (Hframe & Hann & Hp) Hr. destruct s as [m rv].
  unfold react in Hr. simpl in Hr.
  destruct p; simpl in Hr; split_tests Hr.
  all: (split; [apply Forall_app; split; [done|];
                apply Forall_singleton; split; simpl; auto |]).
  all: (split; [apply waits_announced_snoc; [done|]; simpl; try done |]).
  all: unfold wait_waits in *; rewrite ?occurrences_snoc; simpl;
       rewrite ?Nat.add_0_r.
  all: repeat match goal with
         | H : _ /\ _ |- _ => destruct H
         | H : (_ <? _) = true |- _ => apply Z.ltb_lt in H
         | H : (_ <? _) = false |- _ => apply Z.ltb_ge in H
         | H : (_ =? _) = true |- _ => apply Z.eqb_eq in H
         end.
  all: unfold lock_spin_count in *.
  all: try (split; [lia | done]).
  all: try done.
  - split; [done|]. exists tr, did_futex, i, m.
    rewrite Heqb. unfold lock_spin_count. repeat split; first [done | lia].
  - split; [done|]. by eexists tr, _.
  - lia.
  - split; [lia|]. destruct (occurrences (is_futex_wait WaitAddr) tr); [lia | done].
Qed.

Lemma wait_exec_inv (tr : list (obs wait_pc)) (p : wait_pc) :
  wait_exec (WaitFor 0 0) tr p -> wait_run_inv tr p.
Proof.
  unfold wait_exec. remember (WaitFor 0 0) as p0 eqn:Hp0. intros H.
  induction H as [p|p tr q m m' q' e Hex IH Hs|p tr q m rv q' Hex IH Hs].
  - subst p. split; [constructor|]. split.
    + intros pre o post Heq. by destruct pre.
    + simpl. unfold lock_spin_count. repeat split; lia.
  - apply (wait_react_inv tr q q' (m, 0)); [by apply IH|].
    unfold react. simpl. by rewrite Hs.
  - apply (wait_react_inv tr q q' (m, rv)); [by apply IH|].
    unfold react. simpl.
    destruct (futex_mutex_wait m q) as [[[m1 q1] e1]|] eqn:Hq.
    + destruct q; simpl in Hs; done.
    + by rewrite Hs.
Qed.

(** C7. [futex_mutex_wait] (lines 86-98).  What each statement does, on
    every memory:
    - the loop test of line 89 goes to the check of line 90 while
      [i < lock_spin_count], and to the store of line 94 otherwise;
    - the check of line 90 reads [lock]; the call returns [did_futex] when
      the value read is 0, and pauses and counts otherwise;
    - line 94 stores 1 into [wait] and touches nothing else; line 95 is
      [futex_wait] on the address of [wait] with expected value 1;
      whatever the kernel returns, the call goes on with [did_futex = 1]
      and a new round of checks (a thread that does not sleep is not
      resumed).
    And for every run of a call from its entry, whether it has returned or
    not: no step wrote to [lock] (a step leaves the memory as it was or
    sets [wait] to 1); every system call issued is that [futex_wait], and
    the step before it stored 1 into [wait]; before its return the call can
    always take its next transition; and if it has returned [r], its last
    step is a check that read [lock = 0], and [r] is 1 exactly when it
    issued at least one kernel wait and 0 exactly when it issued none. *)
Theorem futex_mutex_wait_contract :
  (forall m d i,
     futex_mutex_wait m (WaitFor d i)
     = Some (m, (if i <? lock_spin_count then WaitRead d i else WaitSet d), EvLocal)) /\
  (forall m d i,
     futex_mutex_wait m (WaitRead d i)
     = Some (m, (if lock m =? 0 then WaitReturn d else WaitPause d i),
             EvLoad LockAddr (lock m))) /\
  (forall m d i,
     futex_mutex_wait m (WaitPause d i) = Some (m, WaitFor d (i + 1), EvPause)) /\
  (forall m d,
     futex_mutex_wait m (WaitSet d)
     = Some (mk_mutex (lock m) 1, WaitFutexWait d, EvStore WaitAddr 1)) /\
  (forall m d,
     futex_mutex_wait m (WaitFutexWait d)
     = Some (m, WaitAsleep d, futex_wait WaitAddr 1)) /\
  (forall m d rv,
     futex_mutex_wait m (WaitAsleep d) = None /\
     futex_mutex_wait_resume rv (WaitAsleep d) = Some (WaitFor 1 0)) /\
  (forall m r rv,
     futex_mutex_wait m (WaitReturn r) = None /\
     futex_mutex_wait_resume rv (WaitReturn r) = None) /\
  (forall tr p,
     wait_exec (WaitFor 0 0) tr p ->
     Forall touches_wait_only tr /\
     waits_announced tr /\
     ((forall r, p <> WaitReturn r) ->
      forall m rv, exists o p',
        react futex_mutex_wait futex_mutex_wait_resume (m, rv) p = Some (o, p')) /\
     (forall r, p = WaitReturn r ->
        ends_on_free_check tr /\
        (r = 1 <-> (1 <= wait_waits tr)%nat) /\
        (r = 0 <-> wait_waits tr = O))) /\
  (forall rv p,
     (forall d, p <> WaitAsleep d) -> futex_mutex_wait_resume rv p = None).
Proof.
  split.
  { intros m d i. simpl. by destruct (i <? lock_spin_count). }
  split.
  { intros m d i. simpl. by destruct (lock m =? 0). }
  do 5 (split; [done|]).
  split; [|intros rv p Hp; destruct p; try done; by destruct (Hp did_futex)].
  intros tr p Hex. apply wait_exec_inv in Hex as (Hframe & Hann & Hp).
  split; [done|]. split; [done|]. split.
  - intros Hnot m rv. unfold react.
    destruct p; simpl;
      repeat match goal with |- context [if ?b then _ else _] => destruct b end;
      try (by eexists _, _).
    by destruct (Hnot r).
  - intros r ->. simpl in Hp. destruct Hp as [-> Hend]. split; [done|].
    destruct (wait_waits tr); simpl; split; split; intros; try done; lia.
Qed.

Lemma long_wait_exec : wait_exec (WaitFor 0 0) long_wait_run.1 (WaitReturn 1).
Proof.
  exact (replay_exec futex_mutex_wait futex_mutex_wait_resume
           (WaitFor 0 0) long_wait_stimuli).
Defined.

Lemma futex_mutex_wait_contract_witness :
  wait_exec (WaitFor 0 0) long_wait_run.1 (WaitReturn 1) /\
  Forall touches_wait_only long_wait_run.1 /\
  (1 = 1 <-> (1 <= wait_waits long_wait_run.1)%nat).
Proof.
  split; [exact long_wait_exec|].
  pose proof (proj1 (proj2 (proj2 (proj2 (proj2 (proj2 (proj2 (proj2
                futex_mutex_wait_contract)))))))
                long_wait_run.1 (WaitReturn 1) long_wait_exec) as H.
  split; [exact (proj1 H)|].
  exact (proj1 (proj2 (proj2 (proj2 (proj2 H)) 1 eq_refl))).
Defined.

(** ** futex_mutex_unlock *)

Lemma unlock_later_steps_keep_lock (m m' : futex_mutex_t) (p p' : unlock_pc) (e : event) :
  futex_mutex_unlock m p = Some (m', p', e) ->
  p <> UnlockDec ->
  lock m' = lock m.
Proof.
  intros Hs Hp. destruct p; simpl in Hs; try done; split_tests Hs; done.
Qed.

(** The branch of line 70 in a lone call: a captured value other than 0
    leads to the wake of one thread on the lock address and leaves [wait]
    alone. *)
Lemma unlock_call_nonzero (m : futex_mutex_t) :
  lock m <> 0 ->
  unlock_call m
  = (fetch_and_add LockAddr (-1) m, UnlockReturn,
     [EvFetchAdd LockAddr (-1) (lock m); futex_wake1 LockAddr]).
Proof.
  intros H. unfold unlock_call. simpl. unfold react. simpl.
  apply Z.eqb_neq in H. rewrite H. reflexivity.
Qed.

(** A captured value of 0 leads to the test of [wait]. *)
Lemma unlock_call_zero (m : futex_mutex_t) :
  lock m = 0 ->
  unlock_call m
  = if wait m =? 0
    then (mk_mutex (-1) (wait m), UnlockReturn,
          [EvFetchAdd LockAddr (-1) 0; EvLoad WaitAddr (wait m)])
    else (mk_mutex (-1) 0, UnlockReturn,
          [EvFetchAdd LockAddr (-1) 0; EvLoad WaitAddr (wait m);
           EvStore WaitAddr 0; futex_wakeN WaitAddr]).
Proof.
  intros H. unfold unlock_call. simpl. unfold react. simpl.
  rewrite H. simpl. destruct (wait m =? 0) eqn:Hw; reflexivity.
Qed.

(** C2. Release of a held, uncontended mutex ([lock = 1]) while a thread
    sleeps in [futex_mutex_wait] ([wait = 1]).  The decrement captures 1;
    the test of line 70 is [old_c != 0], so the call wakes one thread on
    the lock address, and it neither clears [wait] nor wakes the address
    of [wait].  By the comments of lines 13 and 100-104 the release that
    takes [lock] to 0 is the one meant to clear [wait] and wake all. *)
Theorem futex_mutex_unlock_captured_one :
  unlock_call (mk_mutex 1 1)
  = (mk_mutex 0 1, UnlockReturn,
     [EvFetchAdd LockAddr (-1) 1; futex_wake1 LockAddr]) /\
  forall w : Z,
    unlock_call (mk_mutex 1 w)
    = (mk_mutex 0 w, UnlockReturn,
       [EvFetchAdd LockAddr (-1) 1; futex_wake1 LockAddr]).
Proof.
  split; [reflexivity|]. intros w.
  by rewrite (unlock_call_nonzero (mk_mutex 1 w)).
Qed.

(** C5. Release on a held mutex: for a lock word [v] with bit 0 set (and
    within the range of [int]) the decrement of line 69 is one atomic step
    that captures [v] and leaves [v - 1]; [v - 1] has bit 0 clear, the same
    bits above bit 0 and so the same count of contenders; no later
    statement of [futex_mutex_unlock] writes [lock], and a whole call made
    alone leaves [lock = v - 1]. *)
Theorem futex_mutex_unlock_clears_bit0 (m : futex_mutex_t) :
  held_bit (lock m) = true ->
  int_range (lock m) ->
  futex_mutex_unlock m UnlockDec
  = Some (store LockAddr (lock m - 1) m, UnlockWake1,
          EvFetchAdd LockAddr (-1) (lock m)) /\
  held_bit (lock m - 1) = false /\
  (forall n, 1 <= n -> Z.testbit (lock m - 1) n = Z.testbit (lock m) n) /\
  contenders (lock m - 1) = contenders (lock m) /\
  (forall m1 m2 p p' e,
     futex_mutex_unlock m1 p = Some (m2, p', e) -> p <> UnlockDec ->
     lock m2 = lock m1) /\
  lock (unlock_call m).1.1 = lock m - 1.
Proof.
  intros Hheld Hrange. rewrite held_bit_odd in Hheld.
  assert (lock m <> 0) as Hnz by (intros H0; rewrite H0 in Hheld; done).
  assert (wrap32 (lock m + -1) = lock m - 1) as Hw.
  { replace (lock m + -1) with (lock m - 1) by lia.
    apply wrap32_id. by apply odd_in_range_pred. }
  split; [|split; [|split; [|split; [|split]]]].
  - simpl. unfold fetch_and_add. simpl. rewrite Hw.
    apply Z.eqb_neq in Hnz. by rewrite Hnz.
  - by rewrite held_bit_odd, odd_pred_flip, Hheld.
  - intros n Hn. apply upper_bits; [by apply contenders_pred_odd | done].
  - by apply contenders_pred_odd.
  - intros m1 m2 p p' e. apply unlock_later_steps_keep_lock.
  - rewrite (unlock_call_nonzero m Hnz). unfold fetch_and_add. simpl. exact Hw.
Qed.

Lemma futex_mutex_unlock_clears_bit0_witness :
  futex_mutex_unlock (mk_mutex 3 0) UnlockDec
  = Some (store LockAddr (3 - 1) (mk_mutex 3 0), UnlockWake1,
          EvFetchAdd LockAddr (-1) 3).
Proof.
  refine (proj1 (futex_mutex_unlock_clears_bit0 (mk_mutex 3 0) _ _)).
  - reflexivity.
  - unfold int_range, INT_MIN, INT_MAX. simpl. lia.
Defined.

Lemma unlock_exec_returned (tr : list (obs unlock_pc)) (q : unlock_pc) :
  unlock_exec UnlockReturn tr q -> tr = [].
Proof.
  intros H. destruct tr as [|o tr]; [done|].
  apply exec_cons_inv in H as (? & _ & [(? & ? & ? & _ & ?)|(? & ? & _ & ?)]);
    discriminate.
Qed.

(** Takes the first step off a run of [futex_mutex_unlock] that has not
    returned yet. *)
Ltac unlock_first H tr m Hs :=
  destruct tr as [|? tr];
  [ apply exec_nil_inv in H; discriminate H
  | apply exec_cons_inv in H as (? & H & [(m & ? & ? & -> & Hs)|(? & ? & _ & ?)]);
    [ simpl in Hs | discriminate ] ].

(** C10. Release on a free, uncontended mutex ([lock = 0], the caller does
    not hold it): the decrement captures 0 and leaves [lock = -1], and the
    call goes to the test of [wait].  A lone call then stops if [wait] is 0
    and otherwise stores 0 into [wait] and wakes every thread on the
    address of [wait].  Under any interleaving the call has the same shape:
    it reads [wait], and if the value read is not 0 it stores 0 and issues
    the wake-all on the address of [wait]; it never issues a wake on the
    lock address. *)
Theorem futex_mutex_unlock_unheld (w : Z) :
  futex_mutex_unlock (mk_mutex 0 w) UnlockDec
  = Some (mk_mutex (-1) w, UnlockReadWait, EvFetchAdd LockAddr (-1) 0) /\
  unlock_call (mk_mutex 0 w)
  = (if w =? 0
     then (mk_mutex (-1) w, UnlockReturn,
           [EvFetchAdd LockAddr (-1) 0; EvLoad WaitAddr w])
     else (mk_mutex (-1) 0, UnlockReturn,
           [EvFetchAdd LockAddr (-1) 0; EvLoad WaitAddr w;
            EvStore WaitAddr 0; futex_wakeN WaitAddr])) /\
  (forall o tr,
     unlock_exec UnlockDec (o :: tr) UnlockReturn ->
     o_pre o = mk_mutex 0 w ->
     o_post o = mk_mutex (-1) w /\
     occurrences (is_futex_wake LockAddr) (o :: tr) = O /\
     exists o1 rest,
       tr = o1 :: rest /\
       o_ev o1 = EvLoad WaitAddr (wait (o_pre o1)) /\
       o_post o1 = o_pre o1 /\
       if wait (o_pre o1) =? 0
       then rest = []
       else exists o2 o3,
           rest = [o2; o3] /\
           o_ev o2 = EvStore WaitAddr 0 /\
           o_post o2 = store WaitAddr 0 (o_pre o2) /\
           o_ev o3 = futex_wakeN WaitAddr /\
           o_post o3 = o_pre o3).
Proof.
  split; [reflexivity|]. split; [exact (unlock_call_zero (mk_mutex 0 w) eq_refl)|].
  intros o tr Hex Hpre. unfold unlock_exec in Hex.
  apply exec_cons_inv in Hex as (p1 & Hex & [(m & m' & e & -> & Hs)|(? & ? & _ & ?)]);
    [|discriminate].
  simpl in Hpre. subst m. simpl in Hs. injection Hs as <- <- <-.
  split; [reflexivity|].
  unlock_first Hex tr m1 Hs1.
  destruct (wait m1 =? 0) eqn:Hw; simpl in Hs1; injection Hs1 as <- <- <-.
  - apply unlock_exec_returned in Hex as ->.
    split; [reflexivity|]. eexists _, _. split; [reflexivity|]. simpl.
    rewrite Hw. done.
  - unlock_first Hex tr m2 Hs2. injection Hs2 as <- <- <-.
    unlock_first Hex tr m3 Hs3. injection Hs3 as <- <- <-.
    apply unlock_exec_returned in Hex as ->.
    split; [reflexivity|]. eexists _, _. split; [reflexivity|]. simpl.
    rewrite Hw. repeat split. by eexists _, _.
Qed.

Example unheld_release_run_events :
  unheld_release_run.2 = UnlockReturn /\
  events unheld_release_run.1
  = [EvFetchAdd LockAddr (-1) 0; EvLoad WaitAddr 1;
     EvStore WaitAddr 0; futex_wakeN WaitAddr].
Proof. vm_compute. done. Qed.

Lemma unheld_release_exec :
  unlock_exec UnlockDec unheld_release_run.1 UnlockReturn.
Proof.
  exact (replay_exec futex_mutex_unlock futex_mutex_unlock_resume UnlockDec
           [(mk_mutex 0 0, 0); (mk_mutex (-1) 1, 0); (mk_mutex (-1) 1, 0);
            (mk_mutex (-1) 0, 0)]).
Defined.

Lemma futex_mutex_unlock_unheld_witness :
  unlock_exec UnlockDec unheld_release_run.1 UnlockReturn /\
  occurrences (is_futex_wake LockAddr) unheld_release_run.1 = O.
Proof.
  split; [exact unheld_release_exec|].
  exact (proj1 (proj2 (proj2 (proj2 (futex_mutex_unlock_unheld 0)) _ _
                         unheld_release_exec eq_refl))).
Defined.

(** ** futex_mutex_subscribe *)

Lemma subscribe_value (v : Z) : Z.land v 1 = Z.b2z (held_bit v).
Proof. unfold held_bit. rewrite Z.bit0_odd. apply land_1_odd. Qed.

Lemma subscribe_exec_shape (tr : list (obs subscribe_pc)) (r : Z) :
  subscribe_exec SubscribeRead tr (SubscribeReturn r) ->
  exists m, tr = [mk_obs SubscribeRead m (EvLoad LockAddr (lock m)) m] /\
            r = Z.b2z (held_bit (lock m)).
Proof.
  unfold subscribe_exec. intros H. destruct tr as [|o tr].
  - apply exec_nil_inv in H. discriminate H.
  - apply exec_cons_inv in H as (p' & H & [(m & m' & e & -> & Hs)|(? & ? & _ & ?)]);
      [|discriminate].
    simpl in Hs. injection Hs as <- <- <-.
    destruct tr as [|o tr].
    + apply exec_nil_inv in H. injection H as <-. exists m.
      by rewrite subscribe_value.
    + apply exec_cons_inv in H as (? & _ & [(? & ? & ? & _ & ?)|(? & ? & _ & ?)]);
        discriminate.
Qed.

Lemma subscribe_calls_fresh (n : nat) :
  subscribe_calls n fresh_mutex = (fresh_mutex, replicate n (Some 0)).
Proof. induction n as [|n IH]; simpl; [done | by rewrite IH]. Qed.

(** C8. [futex_mutex_subscribe] is one read of [lock]: the statement leaves
    the memory as it found it and returns bit 0 of the value it read, as a
    lone call and in any run; and [n] calls in a row on a zero-initialised
    mutex all return 0 and leave the mutex zero. *)
Theorem futex_mutex_subscribe_peek (m : futex_mutex_t) (n : nat) :
  futex_mutex_subscribe m SubscribeRead
  = Some (m, SubscribeReturn (Z.b2z (held_bit (lock m))), EvLoad LockAddr (lock m)) /\
  subscribe_call m
  = (m, SubscribeReturn (Z.b2z (held_bit (lock m))), [EvLoad LockAddr (lock m)]) /\
  (forall tr r,
     subscribe_exec SubscribeRead tr (SubscribeReturn r) ->
     exists m0, tr = [mk_obs SubscribeRead m0 (EvLoad LockAddr (lock m0)) m0] /\
                r = Z.b2z (held_bit (lock m0))) /\
  subscribe_calls n fresh_mutex = (fresh_mutex, replicate n (Some 0)).
Proof.
  split; [|split; [|split]].
  - simpl. by rewrite subscribe_value.
  - unfold subscribe_call. simpl. unfold react. simpl. by rewrite subscribe_value.
  - apply subscribe_exec_shape.
  - apply subscribe_calls_fresh.
Qed.

Lemma peek_exec : subscribe_exec SubscribeRead peek_run.1 (SubscribeReturn 1).
Proof.
  exact (replay_exec futex_mutex_subscribe futex_mutex_subscribe_resume
           SubscribeRead [(mk_mutex 3 0, 0)]).
Defined.

Lemma futex_mutex_subscribe_peek_witness :
  subscribe_exec SubscribeRead peek_run.1 (SubscribeReturn 1) /\
  exists m0, peek_run.1 = [mk_obs SubscribeRead m0 (EvLoad LockAddr (lock m0)) m0] /\
             1 = Z.b2z (held_bit (lock m0)).
Proof.
  split; [exact peek_exec|].
  exact (proj1 (proj2 (proj2 (futex_mutex_subscribe_peek fresh_mutex 3)))
           _ _ peek_exec).
Defined.

(** ** The kernel's answers *)





Example failing_kernel_same_result :
  (replay futex_mutex_lock futex_mutex_lock_resume (LockLoop 0)
     (failing_kernel slow_acquire_stimuli)).2 = LockReturn 1.
Proof. vm_compute. done. Qed.


(** ** The fields stay within the range of int *)

Lemma pc_step_range (m m' : futex_mutex_t) (p p' : pc) (e : event) :
  pc_step m p = Some (m', p', e) ->
  int_range (lock m) /\ int_range (wait m) ->
  int_range (lock m') /\ int_range (wait m').
Proof.
  intros Hs [Hl Hw].
  destruct p as [|q|q|q|q]; simpl in Hs; try done; destruct q; simpl in Hs;
    unfold compare_and_swap, fetch_and_add in Hs; simpl in Hs;
    split_tests Hs; simpl; split; try done; try apply wrap32_range;
    unfold int_range, INT_MIN, INT_MAX; lia.
Qed.

(** Every state the system reaches has both fields within the range of
    [int], so the range conditions of the statements about single steps
    hold wherever a thread can stand. *)
Lemma reachable_int_range (n : nat) (s : system) :
  reachable n s -> int_range (lock (mem s)) /\ int_range (wait (mem s)).
Proof.
  unfold reachable. intros H. revert s H.
  apply (rtc_ind_r (fun s => int_range (lock (mem s)) /\ int_range (wait (mem s)))).
  - unfold int_range, INT_MIN, INT_MAX. simpl. lia.
  - intros s1 s2 _ (i & a & Hact) IH. unfold sys_act in Hact.
    destruct (threads s1 !! i) as [t|]; [|done].
    destruct (thread_act a (mem s1) t) as [[m' t']|] eqn:Ht; [|done].
    injection Hact as <-. simpl.
    destruct a as [c| |rv|]; simpl in Ht.
    + destruct (at_pc t); try done. destruct (may_call (owns t) c); [|done].
      by injection Ht as <- <-.
    + destruct (pc_step (mem s1) (at_pc t)) as [[[m1 p1] e1]|] eqn:Hs; [|done].
      injection Ht as <- <-. by eapply pc_step_range.
    + destruct (pc_resume rv (at_pc t)); [|done]. by injection Ht as <- <-.
    + destruct (at_pc t) as [|q|q|q|q]; try done; destruct q; try done;
        by injection Ht as <- <-.
Qed.

(** ** From the system to the runs of one call *)

Lemma thread_act_has_run (a : action) (m m' : futex_mutex_t) (t t' : thread) :
  thread_act a m t = Some (m', t') ->
  has_run (at_pc t) ->
  has_run (at_pc t').
Proof.
  intros Hact Hrun. destruct t as [o p]. simpl in *.
  destruct a as [c| |rv|]; simpl in Hact.
  - destruct p; try done. destruct (may_call o c); [|done].
    injection Hact as <- <-. destruct c; simpl; eexists; constructor.
  - destruct (pc_step m p) as [[[m1 p1] e1]|] eqn:Hs; [|done].
    injection Hact as <- <-. simpl.
    destruct p as [|q|q|q|q]; simpl in Hs; try done.
    + destruct (futex_mutex_lock m q) as [[[m2 q2] e2]|] eqn:Hq; [|done].
      injection Hs as <- <- <-. destruct Hrun as [tr Hrun].
      eexists. by eapply exec_step.
    + destruct (futex_mutex_unlock m q) as [[[m2 q2] e2]|] eqn:Hq; [|done].
      injection Hs as <- <- <-. destruct Hrun as [tr Hrun].
      eexists. by eapply exec_step.
    + destruct (futex_mutex_subscribe m q) as [[[m2 q2] e2]|] eqn:Hq; [|done].
      injection Hs as <- <- <-. destruct Hrun as [tr Hrun].
      eexists. by eapply exec_step.
    + destruct (futex_mutex_wait m q) as [[[m2 q2] e2]|] eqn:Hq; [|done].
      injection Hs as <- <- <-. destruct Hrun as [tr Hrun].
      eexists. by eapply exec_step.
  - destruct (pc_resume rv p) as [p1|] eqn:Hs; [|done].
    injection Hact as <- <-. simpl.
    destruct p as [|q|q|q|q]; simpl in Hs; try done.
    + destruct (futex_mutex_lock_resume rv q) as [q2|] eqn:Hq; [|done].
      injection Hs as <-. destruct Hrun as [tr Hrun].
      eexists. eapply (exec_resume _ _ _ _ _ m); done.
    + destruct (futex_mutex_wait_resume rv q) as [q2|] eqn:Hq; [|done].
      injection Hs as <-. destruct Hrun as [tr Hrun].
      eexists. eapply (exec_resume _ _ _ _ _ m); done.
  - destruct p as [|q|q|q|q]; try done; destruct q; try done;
      by injection Hact as <- <-.
Qed.

(** In every state the system reaches, each thread inside a call stands
    where a run of that call leads: what holds of all runs of an operation
    holds of every thread of the system. *)
Lemma reachable_has_run (n : nat) (s : system) (i : nat) (t : thread) :
  reachable n s -> threads s !! i = Some t -> has_run (at_pc t).
Proof.
  unfold reachable. intros H. revert s H i t.
  apply (rtc_ind_r (fun s => forall i t, threads s !! i = Some t -> has_run (at_pc t))).
  - intros i t Hi. simpl in Hi. apply lookup_replicate in Hi as [-> _]. done.
  - intros s1 s2 _ (j & a & Hact) IH i t Hi. unfold sys_act in Hact.
    destruct (threads s1 !! j) as [u|] eqn:Hj; [|done].
    destruct (thread_act a (mem s1) u) as [[m' u']|] eqn:Hu; [|done].
    injection Hact as <-. simpl in Hi.
    destruct (decide (j = i)) as [->|Hne].
    + rewrite list_lookup_insert_eq in Hi by by eapply lookup_lt_Some.
      injection Hi as <-. eapply thread_act_has_run; [done|]. by eapply IH.
    + rewrite list_lookup_insert_ne in Hi by done. by eapply IH.
Qed.

(** So, in the system, a thread about to return from [futex_mutex_lock]
    returns 0 or 1, and the value tells whether it slept. *)
Corollary reachable_lock_returns_flag (n : nat) (s : system) (i : nat) (o : bool) (r : Z) :
  reachable n s ->
  threads s !! i = Some (mk_thread o (InLock (LockReturn r))) ->
  r = 0 \/ r = 1.
Proof.
  intros Hreach Hi. destruct (reachable_has_run n s i _ Hreach Hi) as [tr Hrun].
  apply lock_exec_inv in Hrun. simpl in Hrun.
  destruct Hrun as [(_ & _ & ->)|[_ ->]]; [by left|].
  destruct (lock_waits tr); [by left | by right].
Qed.

(** * Beyond the operations one by one *)

(** ** The lock word as an account *)

Lemma wrap32_eq32 (z : Z) : exists k, wrap32 z = z + 2 ^ 32 * k.
Proof.
  unfold wrap32. exists (- ((z + 2 ^ 31) / 2 ^ 32)).
  pose proof (Z.div_mod (z + 2 ^ 31) (2 ^ 32)). lia.
Qed.

Lemma wrap32_add_wrap (x d : Z) : wrap32 (wrap32 x + d) = wrap32 (x + d).
Proof.
  destruct (wrap32_eq32 x) as [k ->]. unfold wrap32.
  replace (x + 2 ^ 32 * k + d + 2 ^ 31) with (x + d + 2 ^ 31 + k * 2 ^ 32) by lia.
  by rewrite Z_mod_plus_full.
Qed.

Lemma registrants_insert (ts : list thread) (i : nat) (t t' : thread) :
  ts !! i = Some t ->
  registrants (<[i:=t']> ts)
  = registrants ts - Z.b2z (registered t) + Z.b2z (registered t').
Proof.
  revert i. induction ts as [|u ts IH]; intros [|i] H; simpl in *; try done.
  - injection H as ->. lia.
  - rewrite (IH i H). lia.
Qed.

Lemma registrants_bounds (ts : list thread) :
  0 <= registrants ts <= Z.of_nat (length ts).
Proof.
  induction ts as [|t ts IH]; simpl; [lia|].
  destruct (registered t); simpl; lia.
Qed.

Lemma thread_act_encoding (a : action) (m m' : futex_mutex_t) (t t' : thread) (X : Z) :
  thread_act a m t = Some (m', t') ->
  disciplined t = true ->
  lock m = wrap32 X ->
  lock m' = wrap32 (X + 2 * (Z.b2z (registered t') - Z.b2z (registered t))
                     + (Z.b2z (charged t') - Z.b2z (charged t))).
Proof.
  destruct t as [o p]. unfold thread_act, disciplined, charged, registered. simpl.
  intros Hact Hd HX.
  destruct a as [c| |rv|].
  - destruct p; try done. destruct c, o; simpl in *; split_tests Hact; simpl;
      rewrite HX; f_equal; lia.
  - destruct p as [|q|q|q|q]; simpl in Hact; try done; destruct q; simpl in Hact;
      unfold compare_and_swap, fetch_and_add in Hact; simpl in Hact;
      split_tests Hact; simpl in *.
    all: try (rewrite HX; f_equal; lia).
    all: repeat match goal with
           | H : (_ =? _) = true |- _ => apply Z.eqb_eq in H; subst
           | H : _ && _ = true |- _ => apply andb_prop in H as [? ?]
           | H : negb ?b = true |- _ => destruct b; [discriminate H|]
           end.
    all: simpl; rewrite <- ?Z.add_opp_r, HX, wrap32_add_wrap; f_equal; lia.
  - destruct p as [|q|q|q|q]; simpl in Hact; try done; destruct q; simpl in Hact;
      split_tests Hact; simpl in *; rewrite HX; f_equal; lia.
  - destruct p as [|q|q|q|q]; simpl in Hact; try done; destruct q; simpl in Hact;
      split_tests Hact; destruct o; simpl in *; try done; rewrite HX; f_equal; lia.
Qed.

Lemma encoding_inv_reachable (n : nat) (s : system) :
  reachable n s -> encoding_inv s /\ length (threads s) = n.
Proof.
  unfold reachable. intros H. revert s H.
  apply (rtc_ind_r (fun s => encoding_inv s /\ length (threads s) = n)).
  - split; [|apply length_replicate]. unfold encoding_inv. simpl.
    assert (registrants (replicate n (mk_thread false Idle)) = 0
            /\ charges (replicate n (mk_thread false Idle)) = 0) as [-> ->]
      by (induction n as [|k [IH1 IH2]]; simpl; [done | by rewrite IH1, IH2]).
    done.
  - intros s1 s2 Hreach (i & a & Hact) [Henc Hlen].
    destruct (mutex_inv_reachable n s1 Hreach) as [_ Hdisc].
    unfold sys_act in Hact.
    destruct (threads s1 !! i) as [t|] eqn:Hi; [|done].
    destruct (thread_act a (mem s1) t) as [[m' t']|] eqn:Ht; [|done].
    injection Hact as <-.
    assert (disciplined t = true) as Hdt.
    { rewrite Forall_lookup in Hdisc. exact (Hdisc i t Hi). }
    split; [|simpl; by rewrite length_insert].
    unfold encoding_inv. simpl.
    rewrite (thread_act_encoding _ _ _ _ _ _ Ht Hdt Henc).
    rewrite (registrants_insert _ _ _ _ Hi), (charges_insert _ _ _ _ Hi).
    f_equal. lia.
Qed.

Lemma charges_bounds (n : nat) (s : system) :
  reachable n s -> 0 <= charges (threads s) <= 1.
Proof.
  intros H. destruct (mutex_inv_reachable n s H) as [-> _].
  rewrite land_1_odd. destruct (Z.odd (lock (mem s))); simpl; lia.
Qed.

(** X1. The comment of line 13 as an invariant: with fewer than 2^30
    threads, in every state the system reaches the lock word is twice the
    number of threads between their registration (line 51) and their
    acquiring compare-and-swap (line 58), plus 1 if a thread is between its
    acquisition and its releasing decrement; so the bits above bit 0 count
    the registered threads and bit 0 says whether the mutex is taken. *)
Theorem lock_word_is_account (n : nat) (s : system) :
  reachable n s ->
  2 * Z.of_nat n + 1 <= INT_MAX ->
  lock (mem s) = 2 * registrants (threads s) + charges (threads s) /\
  0 <= charges (threads s) <= 1 /\
  contenders (lock (mem s)) = registrants (threads s) /\
  Z.b2z (held_bit (lock (mem s))) = charges (threads s).
Proof.
  intros Hreach Hn.
  destruct (encoding_inv_reachable n s Hreach) as [Henc Hlen].
  pose proof (charges_bounds n s Hreach) as Hc.
  pose proof (registrants_bounds (threads s)) as Hr. rewrite Hlen in Hr.
  assert (lock (mem s) = 2 * registrants (threads s) + charges (threads s)) as Hlock.
  { rewrite Henc. apply wrap32_id. unfold int_range, INT_MIN, INT_MAX in *. lia. }
  split; [done|]. split; [done|]. rewrite Hlock. split.
  - unfold contenders. rewrite Z.shiftr_div_pow2 by lia. change (2 ^ 1) with 2.
    symmetry. apply (Z.div_unique _ 2 _ (charges (threads s))); lia.
  - rewrite held_bit_odd, Z.add_comm, Z.odd_add_mul_2.
    assert (charges (threads s) = 0 \/ charges (threads s) = 1) as [-> | ->] by lia;
      done.
Qed.

Lemma handover_reachable :
  reachable 2 (mk_system (mk_mutex 1 0) [mk_thread false Idle; mk_thread true Idle]).
Proof. apply (run_schedule_rtc schedule_handover). exact handover_reaches. Defined.

Lemma lock_word_is_account_witness :
  lock (mk_mutex 1 0)
  = 2 * registrants [mk_thread false Idle; mk_thread true Idle]
    + charges [mk_thread false Idle; mk_thread true Idle].
Proof.
  refine (proj1 (lock_word_is_account 2 _ handover_reachable _)).
  unfold INT_MAX. simpl. lia.
Defined.

(** X2. When no thread is inside a call and none holds the mutex, the lock
    word is 0 again, whatever happened before (and whatever the number of
    threads). *)
Theorem quiescent_lock_is_zero (n : nat) (s : system) :
  reachable n s -> quiescent s -> lock (mem s) = 0.
Proof.
  intros Hreach Hq. destruct (encoding_inv_reachable n s Hreach) as [-> _].
  assert (registrants (threads s) = 0 /\ charges (threads s) = 0) as [-> ->]; [|done].
  unfold quiescent in Hq. induction Hq as [|t ts -> _ [IH1 IH2]]; simpl; [done|].
  by rewrite IH1, IH2.
Qed.

Example cycle_reaches :
  run_schedule schedule_cycle (init 2) = Some (init 2).
Proof. vm_compute. done. Qed.

Lemma quiescent_lock_is_zero_witness : lock (mem (init 2)) = 0.
Proof.
  apply (quiescent_lock_is_zero 2 (init 2)).
  - apply (run_schedule_rtc schedule_cycle). exact cycle_reaches.
  - repeat constructor.
Defined.

(** ** What a release does when its precondition holds *)

Lemma thread_act_wait_branch (a : action) (m m' : futex_mutex_t) (t t' : thread) :
  thread_act a m t = Some (m', t') ->
  in_wait_branch (at_pc t) = false ->
  (charged t = true -> Z.odd (lock m) = true) ->
  in_wait_branch (at_pc t') = false /\
  (wait m' = wait m \/ wait m' = 1).
Proof.
  destruct t as [o p]. unfold thread_act, charged. simpl. intros Hact Hb Hodd.
  destruct a as [c| |rv|].
  - destruct p; try done. destruct (may_call o c); [|done].
    injection Hact as <- <-. split; [by destruct c | by left].
  - destruct p as [|q|q|q|q]; simpl in Hact; try done; destruct q; simpl in Hact;
      unfold compare_and_swap, fetch_and_add in Hact; simpl in Hact; try done;
      split_tests Hact; simpl; try (split; [done | by left]);
      try (split; [done | by right]).
    apply Z.eqb_eq in Heqb. rewrite Heqb in Hodd.
    by specialize (Hodd (orb_true_r o)).
  - destruct p as [|q|q|q|q]; simpl in Hact; try done; destruct q; simpl in Hact;
      split_tests Hact; simpl; split; try done; by left.
  - destruct p as [|q|q|q|q]; simpl in Hact; try done; destruct q; simpl in Hact;
      split_tests Hact; simpl; split; try done; by left.
Qed.

Lemma odd_when_charged (n : nat) (s : system) (i : nat) (t : thread) :
  reachable n s -> threads s !! i = Some t ->
  charged t = true -> Z.odd (lock (mem s)) = true.
Proof.
  intros Hreach Hi Hc. destruct (mutex_inv_reachable n s Hreach) as [Hcount _].
  pose proof (charges_lookup _ _ _ Hi) as Hle.
  rewrite Hc, Hcount, land_1_odd in Hle.
  destruct (Z.odd (lock (mem s))); [done | simpl in Hle; lia].
Qed.

Lemma wait_branch_inv (n : nat) (s : system) :
  reachable n s ->
  (forall i t, threads s !! i = Some t -> in_wait_branch (at_pc t) = false) /\
  (wait (mem s) = 0 \/ wait (mem s) = 1).
Proof.
  unfold reachable. intros H. revert s H.
  apply (rtc_ind_r (fun s =>
    (forall i t, threads s !! i = Some t -> in_wait_branch (at_pc t) = false) /\
    (wait (mem s) = 0 \/ wait (mem s) = 1))).
  - split; [|by left]. intros i t Hi. simpl in Hi.
    apply lookup_replicate in Hi as [-> _]. done.
  - intros s1 s2 Hreach (j & a & Hact) [IH Hw]. unfold sys_act in Hact.
    destruct (threads s1 !! j) as [u|] eqn:Hj; [|done].
    destruct (thread_act a (mem s1) u) as [[m' u']|] eqn:Hu; [|done].
    injection Hact as <-. simpl.
    destruct (thread_act_wait_branch _ _ _ _ _ Hu (IH j u Hj)
                (odd_when_charged n s1 j u Hreach Hj)) as [Hb' Hw'].
    split; [|lia]. intros i t Hi.
    destruct (decide (j = i)) as [->|Hne].
    + rewrite list_lookup_insert_eq in Hi by by eapply lookup_lt_Some.
      by injection Hi as <-.
    + rewrite list_lookup_insert_ne in Hi by done. by eapply IH.
Qed.

(** X3. Under the precondition of Release (a thread calls
    [futex_mutex_unlock] only while it holds the mutex) the decrement of
    line 69 always captures an odd value, so the test [old_c != 0] of
    line 70 always succeeds: no thread ever stands at lines 75-77.
    Hence [wait] only takes the values 0 and 1, no step of the system takes
    it from 1 back to 0, and [futex_wakeN] is never issued. *)
Theorem release_never_takes_wait_branch (n : nat) (s s' : system) :
  reachable n s ->
  sys_step s s' ->
  (forall i t, threads s !! i = Some t -> in_wait_branch (at_pc t) = false) /\
  (forall i t, threads s' !! i = Some t -> in_wait_branch (at_pc t) = false) /\
  (wait (mem s) = 0 \/ wait (mem s) = 1) /\
  (wait (mem s) = 1 -> wait (mem s') = 1).
Proof.
  intros Hreach Hstep.
  assert (reachable n s') as Hreach' by (eapply rtc_r; done).
  destruct (wait_branch_inv n s Hreach) as [Hb Hw].
  destruct (wait_branch_inv n s' Hreach') as [Hb' Hw'].
  split; [done|]. split; [done|]. split; [done|]. intros H1.
  destruct Hstep as (j & a & Hact). unfold sys_act in Hact.
  destruct (threads s !! j) as [u|] eqn:Hj; [|done].
  destruct (thread_act a (mem s) u) as [[m' u']|] eqn:Hu; [|done].
  injection Hact as <-. simpl.
  destruct (thread_act_wait_branch _ _ _ _ _ Hu (Hb j u Hj)
              (odd_when_charged n s j u Hreach Hj)) as [_ Hw2].
  lia.
Qed.

Lemma sleeper_reachable : reachable 2 sleeper_state.
Proof. apply (run_schedule_rtc schedule_sleeper). exact sleeper_reaches. Defined.

Lemma release_never_takes_wait_branch_witness :
  wait (mem (mk_system (mk_mutex 0 1)
               [mk_thread false Idle; mk_thread false (InWait (WaitFor 1 0))])) = 1.
Proof.
  refine (proj2 (proj2 (proj2
            (release_never_takes_wait_branch 2 sleeper_state _ sleeper_reachable _)))
            eq_refl).
  exists 1%nat, (AResume 0). reflexivity.
Defined.

(** ** Peeking and waiting beside an owner *)

(** X4. [futex_mutex_subscribe] beside the other threads: in any state the
    system reaches, the read of line 83 leaves the memory alone and returns
    1 if some thread is between its acquisition and its releasing
    decrement, and 0 otherwise; in particular it returns 1 as long as some
    thread holds the mutex. *)
Theorem subscribe_sees_owner (n : nat) (s s' : system) (j : nat) (o : bool) :
  reachable n s ->
  threads s !! j = Some (mk_thread o (InSubscribe SubscribeRead)) ->
  sys_act j ARun s = Some s' ->
  mem s' = mem s /\
  threads s' !! j
  = Some (mk_thread o (InSubscribe (SubscribeReturn (charges (threads s))))) /\
  ((exists i t, threads s !! i = Some t /\ owns t = true) -> charges (threads s) = 1) /\
  ((forall i t, threads s !! i = Some t -> charged t = false) -> charges (threads s) = 0).
Proof.
  intros Hreach Hj Hact. unfold sys_act in Hact. rewrite Hj in Hact. simpl in Hact.
  injection Hact as <-. simpl.
  destruct (mutex_inv_reachable n s Hreach) as [Hcount _].
  split; [done|]. split.
  - rewrite list_lookup_insert_eq by by eapply lookup_lt_Some. by rewrite Hcount.
  - pose proof (charges_bounds n s Hreach) as Hb. split.
    + intros (i & t & Hi & Ho). pose proof (charges_lookup _ _ _ Hi) as Hle.
      unfold charged in Hle. rewrite Ho in Hle. simpl in Hle. lia.
    + intros Hnone. clear -Hnone.
      induction (threads s) as [|t ts IH]; simpl; [done|].
      rewrite (Hnone 0%nat t eq_refl). simpl. apply IH.
      intros i u Hi. exact (Hnone (S i) u Hi).
Qed.

Example peek_held_reaches :
  run_schedule schedule_peek_held (init 2) = Some peek_held_state.
Proof. vm_compute. done. Qed.

Lemma peek_held_reachable : reachable 2 peek_held_state.
Proof. apply (run_schedule_rtc schedule_peek_held). exact peek_held_reaches. Defined.

Lemma subscribe_sees_owner_witness :
  threads (mk_system (mk_mutex 1 0)
             [mk_thread true Idle; mk_thread false (InSubscribe (SubscribeReturn 1))])
    !! 1%nat
  = Some (mk_thread false (InSubscribe (SubscribeReturn (charges (threads peek_held_state))))).
Proof.
  exact (proj1 (proj2 (subscribe_sees_owner 2 peek_held_state _ 1 false
                         peek_held_reachable eq_refl eq_refl))).
Defined.

(** X5. [futex_mutex_wait] beside the other threads (fewer than 2^30 of
    them): the check of line 90 lets the call return only in a state where
    no thread holds the mutex and none is registered as waiting to lock;
    the call returns the flag it has accumulated. *)
Theorem wait_returns_on_idle_mutex (n : nat) (s s' : system) (j : nat) (o : bool)
    (d i r : Z) :
  reachable n s ->
  2 * Z.of_nat n + 1 <= INT_MAX ->
  threads s !! j = Some (mk_thread o (InWait (WaitRead d i))) ->
  sys_act j ARun s = Some s' ->
  threads s' !! j = Some (mk_thread o (InWait (WaitReturn r))) ->
  r = d /\
  mem s' = mem s /\
  registrants (threads s) = 0 /\
  charges (threads s) = 0 /\
  (forall k t, threads s !! k = Some t -> owns t = false).
Proof.
  intros Hreach Hn Hj Hact Hret.
  destruct (lock_word_is_account n s Hreach Hn) as (Hlock & Hc & _ & _).
  pose proof (registrants_bounds (threads s)) as Hr.
  unfold sys_act in Hact. rewrite Hj in Hact. simpl in Hact.
  destruct (lock (mem s) =? 0) eqn:H0; simpl in Hact; injection Hact as <-;
    simpl in Hret;
    rewrite list_lookup_insert_eq in Hret by (by eapply lookup_lt_Some);
    [|discriminate Hret].
  injection Hret as <-. apply Z.eqb_eq in H0.
  assert (charges (threads s) = 0) as Hc0 by lia.
  split; [done|]. split; [done|]. split; [lia|]. split; [done|].
  intros k t Hk. pose proof (charges_lookup _ _ _ Hk) as Hle.
  unfold charged in Hle. destruct (owns t); [simpl in Hle; lia | done].
Qed.

Example wait_free_reaches :
  run_schedule schedule_wait_free (init 2) = Some wait_free_state.
Proof. vm_compute. done. Qed.

Lemma wait_free_reachable : reachable 2 wait_free_state.
Proof. apply (run_schedule_rtc schedule_wait_free). exact wait_free_reaches. Defined.

Lemma wait_returns_on_idle_mutex_witness :
  0 = 0 /\ registrants (threads wait_free_state) = 0.
Proof.
  assert (2 * Z.of_nat 2 + 1 <= INT_MAX) as Hn by (unfold INT_MAX; simpl; lia).
  pose proof (wait_returns_on_idle_mutex 2 wait_free_state _ 1 false 0 0 0
                wait_free_reachable Hn eq_refl eq_refl eq_refl) as H.
  exact (conj (proj1 H) (proj1 (proj2 (proj2 H)))).
Defined.

(** ** More about single calls *)

(** X6. The spin budget of [futex_mutex_lock] counts pauses: while the call
    is in the spin phase the number of [_mm_pause] it has executed is the
    value of [count]; it registers as a contender (line 51) only after
    exactly [lock_spin_count] = 20 pauses, however many of its
    compare-and-swaps failed in between; and no call ever pauses more than
    20 times. *)
Theorem lock_registers_after_budget (tr : list (obs lock_pc)) (p : lock_pc) :
  lock_exec (LockLoop 0) tr p ->
  (forall c, spin_count_of p = Some c -> lock_pauses tr = c) /\
  (p = LockRegister \/ in_slow p = true -> lock_pauses tr = lock_spin_count) /\
  0 <= lock_pauses tr <= lock_spin_count.
Proof.
  intros Hex. pose proof (lock_pause_exec_inv tr p Hex) as Hp.
  apply lock_exec_inv in Hex.
  split; [|split].
  - intros c Hc. destruct p; simpl in Hc; try done; injection Hc as <-; exact Hp.
  - intros [-> | Hslow]; [exact Hp|]. destruct p; simpl in Hslow; try done; exact Hp.
  - destruct p; simpl in Hp, Hex; unfold lock_spin_count in *; lia.
Qed.

Lemma lock_registers_after_budget_witness :
  lock_pauses spun_out_run.1 = lock_spin_count.
Proof.
  exact (proj1 (proj2 (lock_registers_after_budget _ _ spun_out_exec))
           (or_introl eq_refl)).
Defined.

Lemma lock_react_frame (tr : list (obs lock_pc)) (p p' : lock_pc)
    (s : stimulus) (o : obs lock_pc) :
  lock_run_inv tr p ->
  react futex_mutex_lock futex_mutex_lock_resume s p = Some (o, p') ->
  lock_step_frame o.
Proof.
  intros Hinv Hr. destruct s as [m rv]. unfold react in Hr. simpl in Hr.
  destruct p; simpl in Hr; unfold compare_and_swap, fetch_and_add in Hr;
    simpl in Hr; split_tests Hr; split; simpl; try done.
  intros _. simpl in Hinv. destruct Hinv as (_ & _ & Hodd). by eexists.
Qed.

(** X7. What [futex_mutex_lock] leaves alone: no step of a call changes
    [wait]; the call issues no wake; and its only system call is
    [futex_wait] on the address of [lock] with an odd expected value, so
    the kernel puts the thread to sleep only while the lock word still
    shows the mutex held. *)
Theorem lock_frame (tr : list (obs lock_pc)) (p : lock_pc) :
  lock_exec (LockLoop 0) tr p ->
  Forall lock_step_frame tr /\
  occurrences (is_futex_wake LockAddr) tr = O /\
  occurrences (is_futex_wake WaitAddr) tr = O /\
  occurrences (is_futex_wait WaitAddr) tr = O.
Proof.
  unfold lock_exec. remember (LockLoop 0) as p0 eqn:Hp0. intros H.
  induction H as [p|p tr q m m' q' e Hex IH Hs|p tr q m rv q' Hex IH Hs].
  - split; [constructor | done].
  - destruct (IH Hp0) as (Hf & Hw1 & Hw2 & Hw3). subst p.
    apply lock_exec_inv in Hex.
    assert (lock_step_frame (mk_obs q m e m')) as Hfr.
    { apply (lock_react_frame tr q q' (m, 0)); [done|].
      unfold react. simpl. by rewrite Hs. }
    split; [apply Forall_app; split; [done | by apply Forall_singleton]|].
    rewrite !occurrences_snoc, Hw1, Hw2, Hw3. simpl.
    destruct Hfr as [_ Hsys].
    destruct e; simpl in *; try done.
    destruct (Hsys eq_refl) as (v & Hv & _). by injection Hv as -> -> ->.
  - destruct (IH Hp0) as (Hf & Hw1 & Hw2 & Hw3).
    split; [apply Forall_app; split; [done|]; apply Forall_singleton; by split|].
    rewrite !occurrences_snoc, Hw1, Hw2, Hw3. done.
Qed.

Lemma lock_frame_witness :
  Forall lock_step_frame slow_acquire_run.1.
Proof. exact (proj1 (lock_frame _ _ slow_acquire_exec)). Defined.

(** X8. A call of [futex_mutex_lock] returns only from its own winning
    compare-and-swap: the last step of a call that returned found [lock]
    equal to the even value [v] the call had read, and replaced it by the
    odd value [v + 1] (line 43) or [v - 1] (line 58).  A call that only
    ever meets an odd lock word does not return. *)
Theorem lock_returns_on_winning_cas (tr : list (obs lock_pc)) (r : Z) :
  lock_exec (LockLoop 0) tr (LockReturn r) ->
  ends_on_winning_cas tr /\
  ~ Forall (fun o => Z.odd (lock (o_pre o)) = true) tr.
Proof.
  unfold lock_exec. intros H.
  assert (ends_on_winning_cas tr) as Hend.
  { inversion H as [|p tr0 q m m' q' e Hex Hs Heq|p tr0 q m rv q' Hex Hs Heq]; subst.
    - apply lock_exec_inv in Hex.
      destruct q; simpl in Hs; unfold compare_and_swap in Hs; simpl in Hs;
        split_tests Hs; simpl in Hex.
      + destruct Hex as (_ & Hev & _). apply Z.eqb_eq in Heqb.
        exists tr0, (LockFastCas count old_c), old_c, m. simpl.
        split; [done|]. split; [by exists count; left|]. split; [done|].
        split; [done|]. by rewrite wrap32_odd, odd_succ_flip, (even_not_odd _ Hev).
      + destruct Hex as (_ & _ & Hev). apply Z.eqb_eq in Heqb.
        eexists tr0, (LockSlowCas _ old_c), old_c, m. simpl.
        split; [done|]. split; [by eexists; right|]. split; [done|].
        split; [done|]. by rewrite wrap32_odd, odd_pred_flip, (even_not_odd _ Hev).
    - destruct q; simpl in Hs; done. }
  split; [done|]. intros Hall.
  destruct Hend as (tr0 & q & v & m & -> & _ & Hm & Hev & _).
  rewrite Forall_app, Forall_singleton in Hall. destruct Hall as [_ Hlast].
  simpl in Hlast. rewrite Hm, (even_not_odd _ Hev) in Hlast. done.
Qed.

Lemma lock_returns_on_winning_cas_witness :
  ends_on_winning_cas slow_acquire_run.1.
Proof. exact (proj1 (lock_returns_on_winning_cas _ 1 slow_acquire_exec)). Defined.

Lemma wait_pause_exec_inv (tr : list (obs wait_pc)) (p : wait_pc) :
  wait_exec (WaitFor 0 0) tr p -> wait_pause_inv tr p.
Proof.
  unfold wait_exec. remember (WaitFor 0 0) as p0 eqn:Hp0. intros H.
  induction H as [p|p tr q m m' q' e Hex IH Hs|p tr q m rv q' Hex IH Hs].
  - subst p. done.
  - specialize (IH Hp0). subst p. apply wait_exec_inv in Hex as (_ & _ & Hq).
    unfold wait_pause_inv, wait_pauses, wait_waits in *.
    destruct q; simpl in Hs; split_tests Hs; rewrite ?occurrences_snoc; simpl in *;
      repeat match goal with
        | H : (_ <? _) = true |- _ => apply Z.ltb_lt in H
        | H : (_ <? _) = false |- _ => apply Z.ltb_ge in H
        | H : _ /\ _ |- _ => destruct H
        end;
      unfold lock_spin_count in *; try lia.
    exists i. lia.
  - specialize (IH Hp0). unfold wait_pause_inv, wait_pauses, wait_waits in *.
    destruct q; simpl in Hs; try done. injection Hs as <-.
    rewrite !occurrences_snoc. simpl. lia.
Qed.

(** X9. The rhythm of [futex_mutex_wait]: every kernel wait of a call comes
    after a full round of [lock_spin_count] = 20 failed checks of line 90,
    each followed by a pause.  When the call returns after [w] kernel waits
    it has paused [20 * w + i] times with [0 <= i < 20], [i] being the
    number of failed checks of its last round. *)
Theorem wait_spins_between_sleeps (tr : list (obs wait_pc)) (r : Z) :
  wait_exec (WaitFor 0 0) tr (WaitReturn r) ->
  exists i, 0 <= i < lock_spin_count /\
            wait_pauses tr = lock_spin_count * Z.of_nat (wait_waits tr) + i.
Proof. intros H. exact (wait_pause_exec_inv tr _ H). Qed.

Lemma wait_spins_between_sleeps_witness :
  exists i, 0 <= i < lock_spin_count /\
            wait_pauses long_wait_run.1
            = lock_spin_count * Z.of_nat (wait_waits long_wait_run.1) + i.
Proof. exact (wait_spins_between_sleeps _ 1 long_wait_exec). Defined.

(** X10. An uncontended acquire and release by a lone thread: on a lock
    word [v] with bit 0 clear (within the range of [int])
    [futex_mutex_lock] returns 0 after three statements without a system
    call and leaves [v + 1]; the [futex_mutex_unlock] that follows brings
    the mutex back to exactly what it was, and it issues a wake of one
    thread on the lock address although nobody waits there when [v = 0]. *)
Theorem lone_acquire_release (m : futex_mutex_t) :
  held_bit (lock m) = false ->
  int_range (lock m) ->
  lock_call m
  = (store LockAddr (lock m + 1) m, LockReturn 0,
     [EvLocal; EvLoad LockAddr (lock m); EvCas LockAddr (lock m) (lock m + 1) true]) /\
  unlock_call (lock_call m).1.1
  = (m, UnlockReturn,
     [EvFetchAdd LockAddr (-1) (lock m + 1); futex_wake1 LockAddr]).
Proof.
  intros Hfree Hrange. rewrite held_bit_odd in Hfree.
  assert (Z.even (lock m) = true) as Hev by (rewrite <- Z.negb_odd; by rewrite Hfree).
  assert (lock_call m
          = (store LockAddr (lock m + 1) m, LockReturn 0,
             [EvLocal; EvLoad LockAddr (lock m);
              EvCas LockAddr (lock m) (lock m + 1) true])) as Hcall.
  { unfold lock_call. simpl. unfold react. simpl.
    rewrite land_1_odd, Hfree. simpl. unfold compare_and_swap. simpl.
    rewrite Z.eqb_refl. simpl.
    by rewrite (wrap32_id (lock m + 1)) by by apply even_in_range_succ. }
  split; [done|]. rewrite Hcall. simpl.
  rewrite unlock_call_nonzero.
  - unfold fetch_and_add. simpl.
    replace (lock m + 1 + -1) with (lock m) by lia.
    rewrite (wrap32_id _ Hrange). by destruct m.
  - simpl. intros H0. apply (f_equal Z.odd) in H0.
    rewrite odd_succ_flip, Hfree in H0. done.
Qed.

Lemma lone_acquire_release_witness :
  unlock_call (lock_call (mk_mutex 2 0)).1.1
  = (mk_mutex 2 0, UnlockReturn,
     [EvFetchAdd LockAddr (-1) (2 + 1); futex_wake1 LockAddr]).
Proof.
  refine (proj2 (lone_acquire_release (mk_mutex 2 0) _ _)).
  - reflexivity.
  - exact released_mutex_in_range.
Defined.

(** ** The test harness *)

Lemma time_less_spec (a b : timespec) :
  time_less a b = true <->
  tv_sec a < tv_sec b \/ (tv_sec a = tv_sec b /\ tv_nsec a < tv_nsec b).
Proof.
  unfold time_less.
  destruct (tv_sec a <? tv_sec b) eqn:H1; [apply Z.ltb_lt in H1; split; [by left | done]|].
  apply Z.ltb_ge in H1.
  destruct (tv_sec a >? tv_sec b) eqn:H2.
  - apply Z.gtb_lt in H2. split; [done | lia].
  - assert (tv_sec a = tv_sec b) as Heq.
    { pose proof (Zgt_cases (tv_sec a) (tv_sec b)) as Hc. rewrite H2 in Hc. lia. }
    rewrite Z.ltb_lt. split; [by right | lia].
Qed.

(** X11. [time_less] is the strict lexicographic order on seconds, then
    nanoseconds: it is irreflexive and transitive, and of two different
    readings exactly one is less than the other. *)
Theorem time_less_strict_total_order (a b c : timespec) :
  time_less a a = false /\
  (time_less a b = true -> time_less b c = true -> time_less a c = true) /\
  (time_less a b = true -> time_less b a = false) /\
  (a <> b -> time_less a b = true \/ time_less b a = true).
Proof.
  split; [|split; [|split]].
  - destruct (time_less a a) eqn:H; [|done]. apply time_less_spec in H. lia.
  - rewrite !time_less_spec. lia.
  - intros H. destruct (time_less b a) eqn:H'; [|done].
    apply time_less_spec in H, H'. lia.
  - intros Hne. rewrite !time_less_spec.
    destruct a as [sa na], b as [sb nb]. simpl.
    destruct (decide (sa = sb)) as [->|]; [|lia].
    destruct (decide (na = nb)) as [->|]; [done | lia].
Qed.

Lemma time_less_strict_total_order_witness :
  time_less (mk_timespec 1 5) (mk_timespec 2 0) = true.
Proof.
  refine (proj1 (proj2 (time_less_strict_total_order
            (mk_timespec 1 5) (mk_timespec 1 7) (mk_timespec 2 0))) _ _);
    reflexivity.
Defined.

(** X12. On readings as the clock delivers them (nanoseconds between 0 and
    999999999) [time_less] compares the instants: it holds exactly when the
    first reading is earlier in nanoseconds. *)
Theorem time_less_compares_instants (a b : timespec) :
  normalized a -> normalized b ->
  (time_less a b = true <-> nanoseconds a < nanoseconds b).
Proof.
  unfold normalized, nanoseconds. intros Ha Hb. rewrite time_less_spec. lia.
Qed.

Lemma time_less_compares_instants_witness :
  time_less (mk_timespec 1 999999999) (mk_timespec 2 0) = true <->
  nanoseconds (mk_timespec 1 999999999) < nanoseconds (mk_timespec 2 0).
Proof.
  apply time_less_compares_instants; unfold normalized; simpl; lia.
Defined.

Lemma incr64_room (x : Z) : 0 <= x -> x + 1 < 2 ^ 64 -> incr64 x = x + 1.
Proof. intros H0 H1. unfold incr64. apply Z.mod_small. lia. Qed.

Lemma stress_case_sums (i first second k : Z) (c : tallies) :
  0 <= i -> 1 <= k -> tallies_room k c ->
  let c' := stress_case i first second c in
  locked_fast c' + locked_slow c'
  = locked_fast c + locked_slow c + (if i mod 3 =? 0 then 1 else 0) /\
  sub_locked c' + sub_unlocked c'
  = sub_locked c + sub_unlocked c + (if i mod 3 =? 1 then 1 else 0) /\
  wait_long c' + wait_short c'
  = wait_long c + wait_short c + (if i mod 3 =? 2 then 1 else 0) /\
  wait_was_one c' + wait_was_zero c'
  = wait_was_one c + wait_was_zero c + (if i mod 3 =? 2 then 1 else 0) /\
  tallies_room (k - 1) c'.
Proof.
  intros Hi Hk Hroom. unfold tallies_room in *.
  destruct Hroom as (H1 & H2 & H3 & H4 & H5 & H6 & H7 & H8 & S1 & S2 & S3 & S4).
  assert (i mod 3 = 0 \/ i mod 3 = 1 \/ i mod 3 = 2) as Hmod
    by (pose proof (Z.mod_pos_bound i 3); lia).
  unfold stress_case.
  destruct Hmod as [-> | [-> | ->]]; simpl;
    destruct (first =? 0); simpl; try destruct (second =? 0); simpl;
    rewrite ?incr64_room by lia; lia.
Qed.

Lemma stress_for_sums (fuel : nat) (i : Z) (ret : Z -> Z * Z) (c : tallies) :
  0 <= i <= 100 ->
  100 - i < Z.of_nat fuel ->
  tallies_room (100 - i) c ->
  let c' := stress_for fuel i ret c in
  locked_fast c' + locked_slow c'
  = locked_fast c + locked_slow c + (34 - (i + 2) / 3) /\
  sub_locked c' + sub_unlocked c'
  = sub_locked c + sub_unlocked c + (33 - (i + 1) / 3) /\
  wait_long c' + wait_short c' = wait_long c + wait_short c + (33 - i / 3) /\
  wait_was_one c' + wait_was_zero c'
  = wait_was_one c + wait_was_zero c + (33 - i / 3) /\
  tallies_room 0 c'.
Proof.
  revert i c. induction fuel as [|fuel IH]; intros i c Hi Hfuel Hroom; [lia|].
  simpl. destruct (i <? 100) eqn:Hlt.
  - apply Z.ltb_lt in Hlt.
    assert (incr64 i = i + 1) as -> by (apply incr64_room; lia).
    destruct (stress_case_sums i (ret i).1 (ret i).2 (100 - i) c)
      as (E1 & E2 & E3 & E4 & Hroom'); [lia | lia | done |].
    replace (100 - i - 1) with (100 - (i + 1)) in Hroom' by lia.
    destruct (IH (i + 1) _ ltac:(lia) ltac:(lia) Hroom')
      as (F1 & F2 & F3 & F4 & Hroom'').
    simpl in *. rewrite F1, F2, F3, F4, E1, E2, E3, E4.
    split; [|split; [|split; [|split; [|done]]]];
      destruct (i mod 3 =? 0) eqn:M0; destruct (i mod 3 =? 1) eqn:M1;
      destruct (i mod 3 =? 2) eqn:M2;
      rewrite ?Z.eqb_eq, ?Z.eqb_neq in *;
      Z.div_mod_to_equations; lia.
  - apply Z.ltb_ge in Hlt. assert (i = 100) as -> by lia. simpl.
    change ((100 + 2) / 3) with 34. change ((100 + 1) / 3) with 33.
    change (100 / 3) with 33.
    rewrite !Z.add_0_r. do 4 (split; [lia|]).
    unfold tallies_room in *. lia.
Qed.

Lemma stress_while_clock (start : timespec) (clock : list timespec)
    (ret : nat -> Z -> Z * Z) (b k : nat) (c c' : tallies) :
  stress_while start clock ret b c = Some (c', k) ->
  exists waiting end_ rest,
    clock = waiting ++ end_ :: rest /\
    k = (b + length waiting)%nat /\
    Forall (fun t => time_less start t = false) waiting /\
    time_less start end_ = true.
Proof.
  revert b c. induction clock as [|t clock IH]; intros b c H; simpl in H; [done|].
  destruct (time_less start t) eqn:Ht.
  - injection H as <- <-. exists [], t, clock. simpl.
    repeat split; [lia | constructor | done].
  - destruct (IH _ _ H) as (waiting & end_ & rest & -> & -> & Hall & Hend).
    exists (t :: waiting), end_, rest. simpl.
    repeat split; [lia | by constructor | done].
Qed.

Lemma stress_while_sums (start : timespec) (clock : list timespec)
    (ret : nat -> Z -> Z * Z) (b k : nat) (c c' : tallies) :
  stress_while start clock ret b c = Some (c', k) ->
  100 * Z.of_nat k < 2 ^ 64 ->
  tallies_room 0 c ->
  locked_fast c + locked_slow c = 34 * Z.of_nat b ->
  sub_locked c + sub_unlocked c = 33 * Z.of_nat b ->
  wait_long c + wait_short c = 33 * Z.of_nat b ->
  wait_was_one c + wait_was_zero c = 33 * Z.of_nat b ->
  locked_fast c' + locked_slow c' = 34 * Z.of_nat k /\
  sub_locked c' + sub_unlocked c' = 33 * Z.of_nat k /\
  wait_long c' + wait_short c' = 33 * Z.of_nat k /\
  wait_was_one c' + wait_was_zero c' = 33 * Z.of_nat k.
Proof.
  revert b c. induction clock as [|t clock IH]; intros b c H Hk Hroom S1 S2 S3 S4;
    simpl in H; [done|].
  destruct (time_less start t) eqn:Ht.
  - injection H as <- <-. done.
  - destruct (stress_while_clock _ _ _ _ _ _ _ H) as (w & _ & _ & _ & Hkb & _ & _).
    assert (tallies_room (100 - 0) c) as Hroom100.
    { unfold tallies_room in *. lia. }
    destruct (stress_for_sums 101 0 (ret b) c ltac:(lia) ltac:(lia) Hroom100)
      as (E1 & E2 & E3 & E4 & Hroom').
    change ((0 + 2) / 3) with 0 in E1. change ((0 + 1) / 3) with 0 in E2.
    change (0 / 3) with 0 in E3, E4.
    apply (IH (S b) (stress_batch (ret b) c) H Hk Hroom');
      unfold stress_batch; lia.
Qed.

(** X13. The accounting of [stress]: the loop runs one batch of 100 calls
    for every reading of the clock that is not later than the deadline (the
    first reading plus one second) and stops at the first later reading.
    Each batch makes 34 acquire-release pairs, 33 peeks and 33 waits each
    followed by a peek.  So after [k] batches (with [100 * k < 2^64], no
    counter overflows) the tallies printed satisfy
    [locked_fast + locked_slow = 34 k] and
    [sub_locked + sub_unlocked = wait_long + wait_short
     = wait_was_one + wait_was_zero = 33 k], whatever the calls returned. *)
Theorem stress_tallies (clock : list timespec) (ret : nat -> Z -> Z * Z)
    (c : tallies) (k : nat) :
  stress clock ret = Some (c, k) ->
  100 * Z.of_nat k < 2 ^ 64 ->
  (locked_fast c + locked_slow c = 34 * Z.of_nat k /\
   sub_locked c + sub_unlocked c = 33 * Z.of_nat k /\
   wait_long c + wait_short c = 33 * Z.of_nat k /\
   wait_was_one c + wait_was_zero c = 33 * Z.of_nat k) /\
  exists now waiting end_ rest,
    clock = now :: waiting ++ end_ :: rest /\
    length waiting = k /\
    Forall (fun t => time_less (mk_timespec (tv_sec now + 1) (tv_nsec now)) t = false)
      waiting /\
    time_less (mk_timespec (tv_sec now + 1) (tv_nsec now)) end_ = true.
Proof.
  intros H Hk. destruct clock as [|now clock]; simpl in H; [done|]. split.
  - apply (stress_while_sums _ _ _ _ _ _ _ H Hk); [|done..].
    unfold tallies_room. simpl. lia.
  - destruct (stress_while_clock _ _ _ _ _ _ _ H)
      as (waiting & end_ & rest & -> & -> & Hall & Hend).
    by exists now, waiting, end_, rest.
Qed.

Example stress_sample :
  stress sample_clock sample_returns = Some (sample_tallies, 2%nat).
Proof. vm_compute. done. Qed.

Lemma stress_tallies_witness :
  locked_fast sample_tallies + locked_slow sample_tallies = 34 * Z.of_nat 2.
Proof.
  refine (proj1 (proj1 (stress_tallies sample_clock sample_returns
                          sample_tallies 2 stress_sample _))).
  simpl. lia.
Defined.

(** ** foo and simple_test *)

Lemma scripted_act_sys (i : nat) (a : action) (s s' : scripted) :
  scripted_act i a s = Some s' -> sys_act i a (sys s) = Some (sys s').
Proof.
  unfold scripted_act. intros H.
  destruct a as [c| |rv|].
  - destruct (todo s !! i) as [[|c' rest]|]; try done.
    destruct (call_eqb c c'); [|done].
    destruct (sys_act i (ACall c) (sys s)); [|done]. by injection H as <-.
  - destruct (sys_act i ARun (sys s)); [|done]. by injection H as <-.
  - destruct (sys_act i (AResume rv) (sys s)); [|done]. by injection H as <-.
  - destruct (sys_act i AReturn (sys s)); [|done]. by injection H as <-.
Qed.

(** A scripted system only does what the system can do: every state it
    reaches is a state of the system, with all that holds there. *)
Lemma scripted_reachable (s : scripted) :
  rtc scripted_step simple_test s -> reachable 3 (sys s).
Proof.
  intros H. revert s H. apply (rtc_ind_r (fun s => reachable 3 (sys s))).
  - apply rtc_refl.
  - intros s1 s2 _ (i & a & Hact) IH. eapply rtc_r; [exact IH|].
    exists i, a. by apply scripted_act_sys.
Qed.

Lemma call_eqb_eq (c c' : call) : call_eqb c c' = true -> c = c'.
Proof. by destruct c, c'. Qed.

Lemma foo_progress_cases (t : thread) (l : list call) :
  foo_progress t l ->
  (l = foo /\ t = mk_thread false Idle) \/
  (l = [CallUnlock] /\
   ((owns t = false /\ exists q, at_pc t = InLock q) \/ t = mk_thread true Idle)) \/
  (l = [] /\ owns t = false /\ (at_pc t = Idle \/ exists q, at_pc t = InUnlock q)).
Proof.
  intros H. destruct l as [|c1 [|c2 [|c3 l]]]; simpl in H.
  - right. right. done.
  - destruct c1; try done. right. left. done.
  - destruct c1, c2; try done. left. done.
  - destruct c1, c2; done.
Qed.

Lemma foo_thread_act (a : action) (m m' : futex_mutex_t) (t t' : thread)
    (l : list call) :
  thread_act a m t = Some (m', t') ->
  foo_progress t l ->
  wait m = 0 ->
  wait m' = 0 /\
  match a with
  | ACall c => forall rest, l = c :: rest -> foo_progress t' rest
  | _ => foo_progress t' l
  end.
Proof.
  intros Hact Hp Hw.
  apply foo_progress_cases in Hp
    as [[-> ->]|[[-> [[Ho [q Hq]]| ->]]|(-> & Ho & [Hq|[q Hq]])]];
    destruct a as [c| |rv|]; try destruct t as [o p]; simpl in *; subst;
    simpl in Hact; try done.
  - destruct c; simpl in Hact; try done; injection Hact as <- <-;
      (split; [done|]); intros rest Heq; try done.
    injection Heq as <-. simpl. left. split; [done|]. by eexists.
  - destruct q; simpl in Hact; unfold compare_and_swap, fetch_and_add in Hact;
      simpl in Hact; split_tests Hact; simpl; (split; [done|]); left;
      (split; [done|]); by eexists.
  - destruct q; simpl in Hact; split_tests Hact; simpl. split; [done|]. left.
    split; [done|]. by eexists.
  - destruct q; simpl in Hact; split_tests Hact; simpl. split; [done|]. by right.
  - destruct c; simpl in Hact; try done; injection Hact as <- <-;
      (split; [done|]); intros rest Heq; try done.
    injection Heq as <-. simpl. split; [done|]. right. by eexists.
  - destruct (may_call false c); [|done]. injection Hact as <- <-. done.
  - destruct q; simpl in Hact; unfold fetch_and_add in Hact;
      simpl in Hact; split_tests Hact; simpl; (split; [done|]); (split; [done|]);
      right; by eexists.
  - destruct q; simpl in Hact; split_tests Hact; simpl. split; [done|].
    split; [done|]. by left.
Qed.

Lemma foo_inv_step (s s' : scripted) :
  Forall2 foo_progress (threads (sys s)) (todo s) /\ wait (mem (sys s)) = 0 ->
  scripted_step s s' ->
  Forall2 foo_progress (threads (sys s')) (todo s') /\ wait (mem (sys s')) = 0.
Proof.
  intros [Hall Hw] (i & a & Hact). unfold scripted_act in Hact.
  assert (forall s1, sys_act i a (sys s) = Some s1 ->
          exists t t' l, threads (sys s) !! i = Some t /\ todo s !! i = Some l /\
                         foo_progress t l /\
                         thread_act a (mem (sys s)) t = Some (mem s1, t') /\
                         threads s1 = <[i:=t']> (threads (sys s))) as Hsys.
  { intros s1 H1. unfold sys_act in H1.
    destruct (threads (sys s) !! i) as [t|] eqn:Hi; [|done].
    destruct (thread_act a (mem (sys s)) t) as [[m' t']|] eqn:Ht; [|done].
    injection H1 as <-. simpl.
    destruct (Forall2_lookup_l _ _ _ _ _ Hall Hi) as (l & Hl & Hp).
    by exists t, t', l. }
  destruct a as [c| |rv|].
  - destruct (todo s !! i) as [[|c' rest]|] eqn:Hl; try done.
    destruct (call_eqb c c') eqn:Hc; [|done]. apply call_eqb_eq in Hc as <-.
    destruct (sys_act i (ACall c) (sys s)) as [s1|] eqn:H1; [|done].
    injection Hact as <-. simpl.
    destruct (Hsys s1 eq_refl) as (t & t' & l & Hi & Hl' & Hp & Ht & ->).
    injection Hl' as <-.
    destruct (foo_thread_act _ _ _ _ _ _ Ht Hp Hw) as [Hw' Hp'].
    split; [|done]. apply Forall2_insert; [done|]. by apply Hp'.
  - destruct (sys_act i ARun (sys s)) as [s1|] eqn:H1; [|done].
    injection Hact as <-. simpl.
    destruct (Hsys s1 eq_refl) as (t & t' & l & Hi & Hl & Hp & Ht & ->).
    destruct (foo_thread_act _ _ _ _ _ _ Ht Hp Hw) as [Hw' Hp'].
    split; [|done]. rewrite <- (list_insert_id (todo s) i l Hl).
    by apply Forall2_insert.
  - destruct (sys_act i (AResume rv) (sys s)) as [s1|] eqn:H1; [|done].
    injection Hact as <-. simpl.
    destruct (Hsys s1 eq_refl) as (t & t' & l & Hi & Hl & Hp & Ht & ->).
    destruct (foo_thread_act _ _ _ _ _ _ Ht Hp Hw) as [Hw' Hp'].
    split; [|done]. rewrite <- (list_insert_id (todo s) i l Hl).
    by apply Forall2_insert.
  - destruct (sys_act i AReturn (sys s)) as [s1|] eqn:H1; [|done].
    injection Hact as <-. simpl.
    destruct (Hsys s1 eq_refl) as (t & t' & l & Hi & Hl & Hp & Ht & ->).
    destruct (foo_thread_act _ _ _ _ _ _ Ht Hp Hw) as [Hw' Hp'].
    split; [|done]. rewrite <- (list_insert_id (todo s) i l Hl).
    by apply Forall2_insert.
Qed.

Lemma foo_inv (s : scripted) :
  rtc scripted_step simple_test s ->
  Forall2 foo_progress (threads (sys s)) (todo s) /\ wait (mem (sys s)) = 0.
Proof.
  intros H. revert s H.
  apply (rtc_ind_r (fun s =>
    Forall2 foo_progress (threads (sys s)) (todo s) /\ wait (mem (sys s)) = 0)).
  - split; [|done]. simpl. repeat constructor.
  - intros s1 s2 _ Hstep IH. by eapply foo_inv_step.
Qed.

Lemma run_script_rtc (sched : list (nat * action)) (s s' : scripted) :
  run_script sched s = Some s' -> rtc scripted_step s s'.
Proof.
  revert s. induction sched as [|[i a] sched IH]; simpl; intros s H.
  - injection H as ->. apply rtc_refl.
  - destruct (scripted_act i a s) as [s1|] eqn:Hs; [|done].
    eapply rtc_l; [by exists i, a | by apply IH].
Qed.

(** X14. [simple_test]: three threads each run [foo] (acquire, sleep,
    release) on the zero-initialised mutex.  Whatever the interleaving,
    once the three threads are joined the mutex is zero-initialised again
    ([lock = 0], [wait = 0]) and no thread holds it; and every state on the
    way is a state of the system, so no two threads are ever inside the
    critical section of [foo] together. *)
Theorem simple_test_leaves_mutex_free (s : scripted) :
  rtc scripted_step simple_test s ->
  reachable 3 (sys s) /\
  (joined s ->
   mem (sys s) = fresh_mutex /\
   Forall (fun t => t = mk_thread false Idle) (threads (sys s))).
Proof.
  intros Hrun. pose proof (scripted_reachable s Hrun) as Hreach.
  split; [done|]. intros [Hidle Hdone].
  destruct (foo_inv s Hrun) as [Hall Hw].
  assert (Forall (fun t => t = mk_thread false Idle) (threads (sys s))) as Hq.
  { clear -Hall Hidle Hdone.
    induction Hall as [|t l ts ls Hp Hall IH]; [constructor|].
    apply Forall_cons in Hidle as [Ht Hidle].
    apply Forall_cons in Hdone as [-> Hdone].
    constructor; [|by apply IH].
    simpl in Hp. destruct Hp as [Ho _]. destruct t as [o p]. simpl in *.
    by subst. }
  split; [|done].
  destruct (encoding_inv_reachable 3 (sys s) Hreach) as [Henc _].
  assert (registrants (threads (sys s)) = 0 /\ charges (threads (sys s)) = 0)
    as [Hr Hc].
  { clear -Hq. induction Hq as [|t ts -> _ [IH1 IH2]]; simpl; [done|].
    by rewrite IH1, IH2. }
  unfold encoding_inv in Henc. rewrite Hr, Hc in Henc.
  destruct (mem (sys s)) as [l w]. simpl in *. by subst.
Qed.

Example simple_test_joins :
  run_script schedule_simple_test simple_test
  = Some (mk_scripted (init 3) [[]; []; []]).
Proof. vm_compute. done. Qed.

Lemma simple_test_leaves_mutex_free_witness :
  mem (sys (mk_scripted (init 3) [[]; []; []])) = fresh_mutex.
Proof.
  refine (proj1 (proj2 (simple_test_leaves_mutex_free
                          (mk_scripted (init 3) [[]; []; []]) _) _)).
  - apply (run_script_rtc schedule_simple_test). exact simple_test_joins.
  - split; repeat constructor.
Defined.
